(** * Verification of fyne's [internal/async] primitives

    The Go templates in [internal/async/gen.go] generate two primitives:
    - the lock-free FIFO queue [{{.Name}}Queue] ([New], [In], [Out], [Len]),
    - the unbounded channel [Unbounded{{.Name}}Chan] with its dispatcher
      goroutine [processing] and its close protocol [closed].

    Both are generic in the element type [{{.Type}}], an interface or
    function type whose zero value is [nil]; here it is a type [T] with a
    distinguished value [nilT]. *)

From Stdlib Require Import ZArith Lia.
From stdpp Require Import gmap list.

Set Default Proof Using "Type".
#[local] Set Warnings "-clear-no-such-hyp".

(** ** The lock-free queue, run by one goroutine at a time *)

Module Queue.
Section Queue.

Context {T : Type} (nilT : T).

(** An [unsafe.Pointer] to an item: an address, or nil. *)
Definition ptr := option nat.

(** [type item{{.Name}} struct { next unsafe.Pointer; v {{.Type}} }] *)
Record item := Item { next : ptr; v : T }.

(** [type {{.Name}}Queue struct { head, tail unsafe.Pointer; len uint64 }] *)
Record Queue := MkQueue { head : ptr; tail : ptr; len : Z }.

(** The memory the operations work on: the allocated items, the package
    level [item{{.Name}}Pool] and the queue [q] points to. *)
Record state := State { heap : gmap nat item; pool : list nat; qu : Queue }.

Definition set_heap (h : gmap nat item) (s : state) : state :=
  State h (pool s) (qu s).
Definition set_pool (p : list nat) (s : state) : state :=
  State (heap s) p (qu s).
Definition set_qu (q : Queue) (s : state) : state :=
  State (heap s) (pool s) q.

(** Outcome of running a piece of code: a value and the new memory, a
    nil-pointer panic, or a loop that has not returned within the fuel. *)
Inductive result (A : Type) :=
  | Ok (a : A) (s : state)
  | Panic
  | Spin.
Arguments Ok {A} a s.
Arguments Panic {A}.
Arguments Spin {A}.

Definition M (A : Type) := state -> result A.

Definition ret {A} (a : A) : M A := fun s => Ok a s.

Definition bind {A B} (k : A -> M B) (m : M A) : M B :=
  fun s => match m s with
           | Ok a s' => k a s'
           | Panic => Panic
           | Spin => Spin
           end.

#[global] Instance M_ret : MRet M := @ret.
#[global] Instance M_bind : MBind M := @bind.

(** The pointer cells the atomics are applied to: [&q.head], [&q.tail] and
    [&p.next] for an item pointer [p]. *)
Inductive loc := Lhead | Ltail | Lnext (p : ptr).

(** [load{{.Name}}Item(p)]: [atomic.LoadPointer]. *)
Definition loadItem (p : loc) : M ptr := fun s =>
  match p with
  | Lhead => Ok (head (qu s)) s
  | Ltail => Ok (tail (qu s)) s
  | Lnext (Some a) =>
      match heap s !! a with
      | Some it => Ok (next it) s
      | None => Panic
      end
  | Lnext None => Panic
  end.

Definition storeItem (p : loc) (x : ptr) : M unit := fun s =>
  match p with
  | Lhead => Ok tt (set_qu (MkQueue x (tail (qu s)) (len (qu s))) s)
  | Ltail => Ok tt (set_qu (MkQueue (head (qu s)) x (len (qu s))) s)
  | Lnext (Some a) =>
      match heap s !! a with
      | Some it => Ok tt (set_heap (<[a := Item x (v it)]> (heap s)) s)
      | None => Panic
      end
  | Lnext None => Panic
  end.

(** [cas{{.Name}}Item(p, old, new)]: [atomic.CompareAndSwapPointer]. *)
Definition casItem (p : loc) (old new : ptr) : M bool :=
  cur ← loadItem p;
  if decide (cur = old) then storeItem p new;; ret true else ret false.

(** [i.v], [i.v = x] *)
Definition getV (i : ptr) : M T := fun s =>
  match i with
  | Some a =>
      match heap s !! a with
      | Some it => Ok (v it) s
      | None => Panic
      end
  | None => Panic
  end.

Definition setV (i : ptr) (x : T) : M unit := fun s =>
  match i with
  | Some a =>
      match heap s !! a with
      | Some it => Ok tt (set_heap (<[a := Item (next it) x]> (heap s)) s)
      | None => Panic
      end
  | None => Panic
  end.

(** [atomic.AddUint64(&q.len, d)] and [atomic.LoadUint64(&q.len)] *)
Definition uint64_max : Z := 2 ^ 64 - 1.

Definition addLen (d : Z) : M unit := fun s =>
  Ok tt (set_qu (MkQueue (head (qu s)) (tail (qu s))
                         ((len (qu s) + d) mod 2 ^ 64)) s).

(** [item{{.Name}}Pool.Get()]. [sync.Pool] hands out any pooled item, or
    ignores the pool and calls [New]; [pick] is that choice: [Some k] asks
    for the [k]-th pooled item, and [New] runs when there is none. *)
Definition poolNew : M ptr := fun s =>
  let a := fresh (dom (heap s)) in
  Ok (Some a) (set_heap (<[a := Item None nilT]> (heap s)) s).

Definition poolGet (pick : option nat) : M ptr := fun s =>
  match pick with
  | Some k =>
      match pool s !! k with
      | Some a => Ok (Some a) (set_pool (delete k (pool s)) s)
      | None => poolNew s
      end
  | None => poolNew s
  end.

(** [item{{.Name}}Pool.Put(p)] *)
Definition poolPut (p : ptr) : M unit := fun s =>
  match p with
  | Some a => Ok tt (set_pool (a :: pool s) s)
  | None => Ok tt s
  end.

(** A [for { ... }] loop whose body either returns or goes round again. *)
Fixpoint loop {A} (fuel : nat) (body : M (option A)) : M A :=
  match fuel with
  | O => fun _ => Spin
  | S n => r ← body;
           match r with
           | Some a => ret a
           | None => loop n body
           end
  end.

(** [New{{.Name}}Queue()]: one sentinel item, head and tail on it. *)
Definition NewQueue (h : gmap nat item) (p : list nat) : state :=
  let a := fresh (dom h) in
  State (<[a := Item None nilT]> h) p (MkQueue (Some a) (Some a) 0).

(** One round of the loop of [In]. *)
Definition In_round (i : ptr) : M (option unit) :=
  last ← loadItem Ltail;
  lastnext ← loadItem (Lnext last);
  last' ← loadItem Ltail;
  if decide (last' = last) then
    if decide (lastnext = None) then
      ok ← casItem (Lnext last) lastnext i;
      if (ok : bool) then
        casItem Ltail last i;;
        addLen 1;;
        ret (Some tt)
      else ret None
    else
      casItem Ltail last lastnext;; ret None
  else ret None.

(** [func (q *{{.Name}}Queue) In(v {{.Type}})] *)
Definition In (fuel : nat) (pick : option nat) (x : T) : M unit :=
  i ← poolGet pick;
  storeItem (Lnext i) None;;
  setV i x;;
  loop fuel (In_round i).

(** One round of the loop of [Out]. *)
Definition Out_round : M (option T) :=
  first ← loadItem Lhead;
  last ← loadItem Ltail;
  firstnext ← loadItem (Lnext first);
  first' ← loadItem Lhead;
  if decide (first = first') then
    if decide (first = last) then
      if decide (firstnext = None) then ret (Some nilT)
      else casItem Ltail last firstnext;; ret None
    else
      x ← getV firstnext;
      ok ← casItem Lhead first firstnext;
      if (ok : bool) then
        addLen uint64_max;;
        poolPut first;;
        ret (Some x)
      else ret None
  else ret None.

(** [func (q *{{.Name}}Queue) Out() {{.Type}}] *)
Definition Out (fuel : nat) : M T := loop fuel Out_round.

(** [func (q *{{.Name}}Queue) Len() uint64] *)
Definition Len : M Z := fun s => Ok (len (qu s)) s.


(** *** Sequences of operations *)

Inductive op := OpIn (pick : option nat) (x : T) | OpOut.

(** What an operation hands back: [In] nothing, [Out] a value. *)
Definition run_op (fuel : nat) (o : op) : M (option T) :=
  match o with
  | OpIn pick x => In fuel pick x;; mret None
  | OpOut => x ← Out fuel; mret (Some x)
  end.

Fixpoint run (fuel : nat) (ops : list op) : M (list (option T)) :=
  match ops with
  | [] => mret []
  | o :: ops' => r ← run_op fuel o; rs ← run fuel ops'; mret (r :: rs)
  end.

Fixpoint In_all (fuel : nat) (xs : list (option nat * T)) : M unit :=
  match xs with
  | [] => mret tt
  | (pick, x) :: xs' => In fuel pick x;; In_all fuel xs'
  end.

Fixpoint Out_n (fuel n : nat) : M (list T) :=
  match n with
  | O => mret []
  | S k => x ← Out fuel; xs ← Out_n fuel k; mret (x :: xs)
  end.

(** The values a queue holds, read off the memory: those of the items
    linked behind the item [head] points to. *)
Fixpoint walk (h : gmap nat item) (fuel : nat) (a : nat) : list T :=
  match fuel with
  | O => []
  | S n =>
      match h !! a with
      | Some (Item (Some b) _) =>
          match h !! b with
          | Some it => v it :: walk h n b
          | None => []
          end
      | _ => []
      end
  end.

Definition elements (s : state) : list T :=
  match head (qu s) with
  | Some a => walk (heap s) (size (heap s)) a
  | None => []
  end.

(** The queue as a mathematical sequence. *)
Definition model_op (o : op) (xs : list T) : list T :=
  match o with
  | OpIn _ x => xs ++ [x]
  | OpOut => drop 1 xs
  end.

Definition model_from (xs : list T) (ops : list op) : list T :=
  foldl (fun xs o => model_op o xs) xs ops.


(** [head] and [tail] are on one item whose [next] is nil. *)
Definition head_is_tail_and_last (s : state) : Prop :=
  head (qu s) = tail (qu s) /\ loadItem (Lnext (head (qu s))) s = Ok None s.

(** *** The shape of the memory between operations *)

(** The items linked from [a] on: their addresses and values. *)
Fixpoint chain (h : gmap nat item) (a : nat) (ns : list (nat * T)) : Prop :=
  match ns with
  | [] => next <$> h !! a = Some None
  | (n, x) :: ns' =>
      next <$> h !! a = Some (Some n) /\ v <$> h !! n = Some x /\
      chain h n ns'
  end.

Definition last_of (a : nat) (ns : list (nat * T)) : nat :=
  default a (last (ns.*1)).

Definition rep (s : state) (xs : list T) : Prop :=
  exists a ns,
    head (qu s) = Some a /\
    tail (qu s) = Some (last_of a ns) /\
    chain (heap s) a ns /\
    ns.*2 = xs /\
    NoDup (a :: ns.*1 ++ pool s) /\
    (forall b, b ∈ pool s -> is_Some (heap s !! b)) /\
    len (qu s) = (Z.of_nat (length xs) mod 2 ^ 64)%Z.

(** What [New] may find: the pooled items are allocated and distinct. *)
Definition wf_pool (h : gmap nat item) (p : list nat) : Prop :=
  NoDup p /\ forall b, b ∈ p -> is_Some (h !! b).

(** The states of a queue between the operations of one goroutine. *)
Definition reachable (s : state) : Prop :=
  exists h p fuel ops rs,
    wf_pool h p /\ run (S fuel) ops (NewQueue h p) = Ok rs s.

(** *** An [In] interrupted between its two compare-and-swaps *)

(** One round of the loop of [In] up to its first [cas]: [Some last] when
    the new item has been linked behind [last]. *)
Definition In_link_round (i : ptr) : M (option ptr) :=
  last ← loadItem Ltail;
  lastnext ← loadItem (Lnext last);
  last' ← loadItem Ltail;
  if decide (last' = last) then
    if decide (lastnext = None) then
      ok ← casItem (Lnext last) lastnext i;
      if (ok : bool) then ret (Some last) else ret None
    else
      casItem Ltail last lastnext;; ret None
  else ret None.

(** [In] up to and including the [cas] that links the new item; it hands
    on [last] and the new item [i]. *)
Definition In_link (fuel : nat) (pick : option nat) (x : T) : M (ptr * ptr) :=
  i ← poolGet pick;
  storeItem (Lnext i) None;;
  setV i x;;
  last ← loop fuel (In_link_round i);
  ret (last, i).

(** The rest of [In]:
    [cas(&q.tail, last, i); atomic.AddUint64(&q.len, 1); return]. *)
Definition In_finish (p : ptr * ptr) : M unit :=
  casItem Ltail p.1 p.2;;
  addLen 1.

(** The shape of the memory with the bookkeeping left open: the items
    linked behind the sentinel [a] are [ns], [tail] is on [tl], and [len]
    is off the number of elements by [d]. *)
Definition repg (s : state) (a : nat) (ns : list (nat * T)) (tl : nat) (d : Z)
  : Prop :=
  head (qu s) = Some a /\
  tail (qu s) = Some tl /\
  chain (heap s) a ns /\
  NoDup (a :: ns.*1 ++ pool s) /\
  (forall b, b ∈ pool s -> is_Some (heap s !! b)) /\
  len (qu s) = ((Z.of_nat (length ns) + d) mod 2 ^ 64)%Z.

(** The zero value of [{{.Name}}Queue], not made by [New]. *)
Definition zero_Queue : Queue := MkQueue None None 0.

(** A piece of code that allocates no item and leaves the pool alone. *)
Definition keeps {A} (m : M A) : Prop :=
  forall s a s', m s = Ok a s' ->
                 dom (heap s') = dom (heap s) /\ pool s' = pool s.

(** *** An [Out] interrupted before its compare-and-swap *)

(** Where a round of the loop of [Out] stands after its reads: over, with
    what the loop does next ([Some x] returns [x], [None] goes round
    again), or about to try [cas(&q.head, first, firstnext)] with
    [v := firstnext.v] read. *)
Inductive Out_at :=
  | OutRound (r : option T)
  | OutCas (first firstnext : ptr) (x : T).

(** One round of the loop of [Out] up to its [cas] on [head]. *)
Definition Out_read : M Out_at :=
  first ← loadItem Lhead;
  last ← loadItem Ltail;
  firstnext ← loadItem (Lnext first);
  first' ← loadItem Lhead;
  if decide (first = first') then
    if decide (first = last) then
      if decide (firstnext = None) then ret (OutRound (Some nilT))
      else casItem Ltail last firstnext;; ret (OutRound None)
    else
      x ← getV firstnext;
      ret (OutCas first firstnext x)
  else ret (OutRound None).

(** The rest of the round: [if cas(&q.head, first, firstnext) {
    atomic.AddUint64(&q.len, ^uint64(0)); pool.Put(first); return v }]. *)
Definition Out_commit (p : Out_at) : M (option T) :=
  match p with
  | OutRound r => ret r
  | OutCas first firstnext x =>
      ok ← casItem Lhead first firstnext;
      if (ok : bool) then
        addLen uint64_max;;
        poolPut first;;
        ret (Some x)
      else ret None
  end.

(** *** The pool under garbage collection *)

(** [item{{.Name}}Pool] is a [sync.Pool]: an item stored in it may be
    removed at any time without notification, which the runtime does at a
    garbage collection. [poolDrop k] removes the [k]-th pooled item. The
    [heap] keeps the item: it records every item allocated so far. *)
Definition poolDrop (k : nat) : M unit := fun s =>
  Ok tt (set_pool (delete k (pool s)) s).

(** The operations of one goroutine, with the collector at work between
    them. *)
Inductive gop := GOp (o : op) | GDrop (k : nat).

Definition run_gop (fuel : nat) (g : gop) : M (option T) :=
  match g with
  | GOp o => run_op fuel o
  | GDrop k => poolDrop k;; mret None
  end.

Fixpoint run_gc (fuel : nat) (gs : list gop) : M (list (option T)) :=
  match gs with
  | [] => mret []
  | g :: gs' => r ← run_gop fuel g; rs ← run_gc fuel gs'; mret (r :: rs)
  end.

(** The number of pooled items the collector removes in a run from [s]. *)
Fixpoint dropped (fuel : nat) (gs : list gop) (s : state) : nat :=
  match gs with
  | [] => 0
  | g :: gs' =>
      match run_gop fuel g s with
      | Ok _ s' =>
          match g with
          | GDrop _ => length (pool s) - length (pool s')
          | GOp _ => 0
          end + dropped fuel gs' s'
      | _ => 0
      end
  end.

End Queue.

Arguments Ok {T A} a s.
Arguments Panic {T A}.
Arguments Spin {T A}.

(** *** Sample queues of [interface{}] values holding numbers *)

Definition state_after (ops : list (@op (option nat))) : @state (option nat) :=
  match run None 1 ops (NewQueue None ∅ []) with
  | Ok _ s => s
  | _ => NewQueue None ∅ []
  end.

(** Emptied again after one element; the sentinel is now the second item. *)
Definition sample_empty : @state (option nat) :=
  state_after [OpIn None (Some 1); OpOut].

(** nil at the front, and an item taken from the pool behind it. *)
Definition sample_nil_first : @state (option nat) :=
  state_after [OpIn None (Some 1); OpIn None None; OpOut; OpIn (Some 0) (Some 3)].

(** Two goroutines on a new queue, with every operation returned at the
    end. The first runs [In(1)] and starts an [Out], which is suspended
    before its [cas] on [head]; the second runs [Out], [In(2)] (getting the
    item just recycled from the pool) and [Out]; the first resumes and its
    [Out] returns. The result: what the three [Out] returned, the first
    goroutine's last, and what [Len()] says then. *)
Definition two_goroutines
  : @M (option nat) (option nat * option nat * option (option nat) * Z) :=
  In None 1 None (Some 1);;
  p ← Out_read None;
  y1 ← Out None 1;
  In None 1 (Some 0) (Some 2);;
  y2 ← Out None 1;
  r ← Out_commit p;
  n ← Len;
  mret (y1, y2, r, n).

(** One more [Out] and [Len()] by either goroutine. *)
Definition Out_then_Len : @M (option nat) (option nat * Z) :=
  y ← Out None 1; n ← Len; mret (y, n).

End Queue.


(** ** The unbounded channel: dispatcher, senders, receiver *)

Module Chan.
Section Chan.

Context {T : Type} (nilT : T).

(** The capacity the runtime picks when [append] has to move a slice of
    capacity [c] to hold [n] elements. *)
Variable growslice : nat -> nat -> nat.

(** *** Slices *)

(** A slice [[]{{.Type}}]: a window of [len] elements from [off] on in its
    backing array; its capacity runs to the end of the array. *)
Record slice := Slice { arr : list T; off : nat; len : nat }.

Definition cap (q : slice) : nat := length (arr q) - off q.

Definition elems (q : slice) : list T := take (len q) (drop (off q) (arr q)).

(** [make([]{{.Type}}, 0, c)] *)
Definition make (c : nat) : slice := Slice (replicate c nilT) 0 0.

(** [append(q, e)]: in place while the capacity lasts, else into a new
    array of the capacity [growslice] picks (at least the new length). *)
Definition append (q : slice) (e : T) : slice :=
  if decide (len q < cap q) then
    Slice (<[off q + len q := e]> (arr q)) (off q) (S (len q))
  else
    Slice (elems q ++ e :: replicate (growslice (cap q) (S (len q)) - S (len q)) nilT)
          0 (S (len q)).

(** [q[0]]; [None] is the index-out-of-range panic. *)
Definition index0 (q : slice) : option T :=
  if decide (0 < len q) then arr q !! off q else None.

(** [q[0] = x] *)
Definition set0 (q : slice) (x : T) : slice :=
  Slice (<[off q := x]> (arr q)) (off q) (len q).

(** [q[1:]] *)
Definition reslice1 (q : slice) : slice :=
  Slice (arr q) (S (off q)) (len q - 1).

(** *** Go channels *)

(** A channel [make(chan A, capacity)]: the values it buffers, oldest
    first, and whether it has been closed. *)
Record chan (A : Type) := MkChan { buf : list A; capacity : nat; is_closed : bool }.
Arguments MkChan {A} buf capacity is_closed.
Arguments buf {A} c.
Arguments capacity {A} c.
Arguments is_closed {A} c.

Inductive sendres (A : Type) := SendOk (c : chan A) | SendBlock | SendPanic.
Arguments SendOk {A} c.
Arguments SendBlock {A}.
Arguments SendPanic {A}.

Inductive recvres (A : Type) := RecvOk (x : A) (c : chan A) | RecvClosed | RecvBlock.
Arguments RecvOk {A} x c.
Arguments RecvClosed {A}.
Arguments RecvBlock {A}.

(** [c <- x]: panics on a closed channel, blocks while the buffer is full. *)
Definition chan_send {A} (c : chan A) (x : A) : sendres A :=
  if is_closed c then SendPanic
  else if decide (length (buf c) < capacity c)
       then SendOk (MkChan (buf c ++ [x]) (capacity c) (is_closed c))
       else SendBlock.

(** [x, ok := <-c]: buffered values first, then [ok = false] once closed. *)
Definition chan_recv {A} (c : chan A) : recvres A :=
  match buf c with
  | x :: rest => RecvOk x (MkChan rest (capacity c) (is_closed c))
  | [] => if is_closed c then RecvClosed else RecvBlock
  end.

(** [close(c)]; [None] is the panic on a closed channel. *)
Definition chan_close {A} (c : chan A) : option (chan A) :=
  if is_closed c then None else Some (MkChan (buf c) (capacity c) true).

(** *** The channel and its dispatcher *)

(** Where the goroutine running [processing] stands. *)
Inductive pc :=
  | PStart       (* before [ch.q = make(...)] *)
  | PSelect1     (* at the first [select] *)
  | PLoop        (* at the test of [for len(ch.q) > 0] *)
  | PSelect2     (* at the [select] inside that loop *)
  | PCheck       (* at [if cap(ch.q) < 1<<5] *)
  | PClosed      (* entering [closed()], before [close(ch.in)] *)
  | PRange       (* in [for e := range ch.in] *)
  | PFlush       (* in the [for len(ch.q) > 0] of [closed()] *)
  | PCloseOut    (* before [close(ch.out)] *)
  | PCloseClose  (* before [close(ch.close)] *)
  | PDone.       (* [processing] has returned *)

#[global] Instance pc_eq_dec : EqDecision pc.
Proof. solve_decision. Defined.

(** [type Unbounded{{.Name}}Chan struct { in, out chan {{.Type}};
    close chan struct{}; q []{{.Type}} }], with the dispatcher's position
    and whether a panic has ended the process. *)
Record state := State {
  ch_in : chan T;
  ch_out : chan T;
  ch_close : chan unit;
  ch_q : slice;
  at_pc : pc;
  crashed : bool
}.

Definition set_in (c : chan T) (s : state) : state :=
  State c (ch_out s) (ch_close s) (ch_q s) (at_pc s) (crashed s).
Definition set_out (c : chan T) (s : state) : state :=
  State (ch_in s) c (ch_close s) (ch_q s) (at_pc s) (crashed s).
Definition set_close (c : chan unit) (s : state) : state :=
  State (ch_in s) (ch_out s) c (ch_q s) (at_pc s) (crashed s).
Definition set_q (q : slice) (s : state) : state :=
  State (ch_in s) (ch_out s) (ch_close s) q (at_pc s) (crashed s).
Definition set_pc (p : pc) (s : state) : state :=
  State (ch_in s) (ch_out s) (ch_close s) (ch_q s) p (crashed s).
Definition set_crashed (s : state) : state :=
  State (ch_in s) (ch_out s) (ch_close s) (ch_q s) (at_pc s) true.

(** [NewUnbounded{{.Name}}Chan()], the dispatcher started and not yet run. *)
Definition NewUnboundedChan : state :=
  State (MkChan [] 16 false) (MkChan [] 16 false) (MkChan [] 0 false)
        (Slice [] 0 0) PStart false.

(** What the goroutines around the channel see happen. *)
Inductive event :=
  | EvSent (v : T)     (* a send on [In()] has completed *)
  | EvRecv (v : T)     (* a receive on [Out()] has returned [v] *)
  | EvEOS              (* a receive on [Out()] has returned [ok = false] *)
  | EvCloseRet         (* [Close()] has returned *)
  | EvPanic.           (* a panic has ended the process *)

(** The moves of the system. A [select] with several ready cases takes any
    of them: the choice is in the action. *)
Inductive action :=
  | ASend (v : T)   (* a goroutine runs [ch.In() <- v] *)
  | ACloseIn        (* misuse: a goroutine runs [close(ch.In())] *)
  | ARecv           (* the receiver runs [v, ok := <-ch.Out()] *)
  | AClose          (* [ch.Close()] meets the dispatcher's [case <-ch.close] *)
  | ARecvIn         (* the dispatcher takes [case e, ok := <-ch.in] *)
  | ASendOut        (* the dispatcher takes [case ch.out <- ch.q[0]] *)
  | ATick.          (* the dispatcher runs its next statement *)

Definition crash (s : state) : option (state * list event) :=
  Some (set_crashed s, [EvPanic]).

(** [case e, ok := <-ch.in: if !ok { panic(...) }; ch.q = append(ch.q, e)] *)
Definition recv_in (s : state) : option (state * list event) :=
  match chan_recv (ch_in s) with
  | RecvOk e c => Some (set_pc PLoop (set_q (append (ch_q s) e) (set_in c s)), [])
  | RecvClosed => crash s
  | RecvBlock => None
  end.

(** [ch.out <- ch.q[0]] then [ch.q[0] = nil; ch.q = ch.q[1:]]; [blocked]
    is what happens while [ch.out] is full. *)
Definition send_out (blocked : option (state * list event)) (p : pc) (s : state)
  : option (state * list event) :=
  match index0 (ch_q s) with
  | Some e =>
      match chan_send (ch_out s) e with
      | SendOk c =>
          Some (set_pc p (set_q (reslice1 (set0 (ch_q s) nilT)) (set_out c s)), [])
      | SendBlock => blocked
      | SendPanic => crash s
      end
  | None => crash s
  end.

(** [func (ch *Unbounded{{.Name}}Chan) closed()], a statement at a time. *)
Definition closed (s : state) : option (state * list event) :=
  match at_pc s with
  | PClosed =>
      (* [close(ch.in)] *)
      match chan_close (ch_in s) with
      | Some c => Some (set_pc PRange (set_in c s), [])
      | None => crash s
      end
  | PRange =>
      (* [for e := range ch.in { ch.q = append(ch.q, e) }] *)
      match chan_recv (ch_in s) with
      | RecvOk e c => Some (set_q (append (ch_q s) e) (set_in c s), [])
      | RecvClosed => Some (set_pc PFlush s, [])
      | RecvBlock => None
      end
  | PFlush =>
      (* [for len(ch.q) > 0 { select { case ch.out <- ch.q[0]: ...
         default: } }]: [default:] goes round again *)
      if decide (0 < len (ch_q s))
      then send_out (Some (s, [])) PFlush s
      else Some (set_pc PCloseOut s, [])
  | PCloseOut =>
      (* [close(ch.out)] *)
      match chan_close (ch_out s) with
      | Some c => Some (set_pc PCloseClose (set_out c s), [])
      | None => crash s
      end
  | PCloseClose =>
      (* [close(ch.close)] *)
      match chan_close (ch_close s) with
      | Some c => Some (set_pc PDone (set_close c s), [])
      | None => crash s
      end
  | _ => None
  end.

(** What the dispatcher does next: the statement it stands at, or at a
    [select] the case it takes. *)
Inductive choice := Next | CaseIn | CaseOut | CaseClose.

(** [func (ch *Unbounded{{.Name}}Chan) processing()], a statement or a
    [select] case at a time. *)
Definition processing (c : choice) (s : state) : option (state * list event) :=
  match at_pc s, c with
  | PStart, Next =>
      (* [ch.q = make([]{{.Type}}, 0, 1<<10)] *)
      Some (set_pc PSelect1 (set_q (make (2 ^ 10)) s), [])
  | PSelect1, CaseIn => recv_in s
  | PSelect1, CaseClose =>
      (* [case <-ch.close: ch.closed(); return] *)
      Some (set_pc PClosed s, [])
  | PLoop, Next =>
      (* [for len(ch.q) > 0] *)
      if decide (0 < len (ch_q s)) then Some (set_pc PSelect2 s, [])
      else Some (set_pc PCheck s, [])
  | PSelect2, CaseOut => send_out None PLoop s
  | PSelect2, CaseIn => recv_in s
  | PSelect2, CaseClose => Some (set_pc PClosed s, [])
  | PCheck, Next =>
      (* [if cap(ch.q) < 1<<5 { ch.q = make([]{{.Type}}, 0, 1<<10) }] *)
      if decide (cap (ch_q s) < 2 ^ 5)
      then Some (set_pc PSelect1 (set_q (make (2 ^ 10)) s), [])
      else Some (set_pc PSelect1 s, [])
  | (PClosed | PRange | PFlush | PCloseOut | PCloseClose), Next => closed s
  | _, _ => None
  end.

(** [func (ch *Unbounded{{.Name}}Chan) Close() { ch.close <- struct{}{} }]:
    a send on the unbuffered [ch.close]. It panics once [ch.close] is
    closed, and else goes through when the dispatcher takes
    [case <-ch.close]. *)
Definition Close (s : state) : option (state * list event) :=
  if is_closed (ch_close s) then crash s
  else match processing CaseClose s with
       | Some (s', _) => Some (s', [EvCloseRet])
       | None => None
       end.

(** One move; [None] when the goroutine making it is blocked (or the
    process has ended). *)
Definition step (a : action) (s : state) : option (state * list event) :=
  if crashed s then None else
  match a with
  | ASend v =>
      match chan_send (ch_in s) v with
      | SendOk c => Some (set_in c s, [EvSent v])
      | SendBlock => None
      | SendPanic => crash s
      end
  | ACloseIn =>
      match chan_close (ch_in s) with
      | Some c => Some (set_in c s, [])
      | None => crash s
      end
  | ARecv =>
      match chan_recv (ch_out s) with
      | RecvOk x c => Some (set_out c s, [EvRecv x])
      | RecvClosed => Some (s, [EvEOS])
      | RecvBlock => None
      end
  | AClose => Close s
  | ARecvIn => processing CaseIn s
  | ASendOut => processing CaseOut s
  | ATick => processing Next s
  end.

Fixpoint exec (l : list action) (s : state) : option (state * list event) :=
  match l with
  | [] => Some (s, [])
  | a :: l' =>
      match step a s with
      | Some (s1, e1) =>
          match exec l' s1 with
          | Some (s2, e2) => Some (s2, e1 ++ e2)
          | None => None
          end
      | None => None
      end
  end.

(** *** Reading a run *)

Definition sent (evs : list event) : list T :=
  omap (fun e => match e with EvSent v => Some v | _ => None end) evs.

Definition recvd (evs : list event) : list T :=
  omap (fun e => match e with EvRecv v => Some v | _ => None end) evs.

(** What the receiver has seen: [Some v] for a value, [None] for
    end-of-stream. *)
Definition observed (evs : list event) : list (option T) :=
  omap (fun e => match e with
                 | EvRecv v => Some (Some v)
                 | EvEOS => Some None
                 | _ => None
                 end) evs.

(** The values on their way from the senders to the receiver. *)
Definition pending (s : state) : list T :=
  buf (ch_out s) ++ elems (ch_q s) ++ buf (ch_in s).

Definition sends_of (l : list action) : list T :=
  omap (fun a => match a with ASend v => Some v | _ => None end) l.

Definition is_dispatcher (a : action) : bool :=
  match a with ARecvIn | ASendOut | ATick => true | _ => false end.

Definition is_send (a : action) : bool :=
  match a with ASend _ => true | _ => false end.

Definition is_recv (a : action) : bool :=
  match a with ARecv => true | _ => false end.

Definition is_misuse (a : action) : bool :=
  match a with ACloseIn => true | _ => false end.

(** The moves of a run in which senders send and nobody receives, and of
    one in which the receiver receives and nobody sends; the dispatcher
    moves in both. *)
Definition feeding (a : action) : bool := is_send a || is_dispatcher a.
Definition draining (a : action) : bool := is_dispatcher a || is_recv a.

(** The moves of a run on a channel that stays open and is not misused. *)
Definition open_use (a : action) : bool :=
  is_send a || is_dispatcher a || is_recv a.

(** *** What holds of every state of a run *)

(** The window of a slice lies within its backing array. *)
Definition wf_slice (q : slice) : Prop := off q + len q <= length (arr q).

(** The dispatcher is inside [closed()], past [close(ch.in)]. *)
Definition is_closing (p : pc) : bool :=
  match p with
  | PRange | PFlush | PCloseOut | PCloseClose | PDone => true
  | _ => false
  end.

(** [Close()] has been received: the dispatcher is in [closed()] or done. *)
Definition close_received (p : pc) : bool :=
  match p with PClosed => true | _ => is_closing p end.

Definition pc_inv (s : state) : Prop :=
  match at_pc s with
  | PStart =>
      len (ch_q s) = 0 /\
      is_closed (ch_out s) = false /\ is_closed (ch_close s) = false
  | PLoop | PClosed =>
      is_closed (ch_out s) = false /\ is_closed (ch_close s) = false
  | PSelect1 =>
      len (ch_q s) = 0 /\ 2 ^ 5 <= cap (ch_q s) /\
      is_closed (ch_out s) = false /\ is_closed (ch_close s) = false
  | PSelect2 =>
      0 < len (ch_q s) /\
      is_closed (ch_out s) = false /\ is_closed (ch_close s) = false
  | PCheck =>
      len (ch_q s) = 0 /\
      is_closed (ch_out s) = false /\ is_closed (ch_close s) = false
  | PRange =>
      is_closed (ch_in s) = true /\
      is_closed (ch_out s) = false /\ is_closed (ch_close s) = false
  | PFlush =>
      is_closed (ch_in s) = true /\ buf (ch_in s) = [] /\
      is_closed (ch_out s) = false /\ is_closed (ch_close s) = false
  | PCloseOut =>
      is_closed (ch_in s) = true /\ buf (ch_in s) = [] /\ len (ch_q s) = 0 /\
      is_closed (ch_out s) = false /\ is_closed (ch_close s) = false
  | PCloseClose =>
      is_closed (ch_in s) = true /\ buf (ch_in s) = [] /\ len (ch_q s) = 0 /\
      is_closed (ch_out s) = true /\ is_closed (ch_close s) = false
  | PDone =>
      is_closed (ch_in s) = true /\ buf (ch_in s) = [] /\ len (ch_q s) = 0 /\
      is_closed (ch_out s) = true /\ is_closed (ch_close s) = true
  end.

Definition inv (s : state) : Prop :=
  wf_slice (ch_q s) /\
  capacity (ch_in s) = 16 /\ capacity (ch_out s) = 16 /\
  pc_inv s.

(** No channel buffers more than its capacity. *)
Definition within_capacity (s : state) : Prop :=
  length (buf (ch_in s)) <= capacity (ch_in s) /\
  length (buf (ch_out s)) <= capacity (ch_out s).

(** The claim that a send on an open channel can always proceed. *)
Definition send_never_blocks : Prop :=
  forall l s evs v,
    Forall (fun a => open_use a = true) l ->
    exec l NewUnboundedChan = Some (s, evs) ->
    is_Some (step (ASend v) s).

(** No panic so far, and [ch.in] closed by [closed()] only. *)
Definition proper (s : state) : Prop :=
  crashed s = false /\
  (is_closed (ch_in s) = true -> is_closing (at_pc s) = true).

(** The receiver's next receive returns [ok = false]. *)
Definition eos (s : state) : Prop :=
  is_closed (ch_out s) = true /\ buf (ch_out s) = [].

(** Nothing is left for the dispatcher or the receiver to do. *)
Definition at_rest (s : state) : Prop :=
  buf (ch_out s) = [] /\
  (at_pc s = PDone \/ (at_pc s = PSelect1 /\ buf (ch_in s) = [])).

(** A bound on the moves the dispatcher and the receiver still make. *)
Definition rank (p : pc) : nat :=
  match p with
  | PSelect1 => 0
  | PStart | PSelect2 | PCheck => 1
  | PLoop | PDone => 2
  | PCloseClose => 3
  | PCloseOut => 4
  | PFlush => 5
  | PRange => 6
  | PClosed => 7
  end.

Definition mu (s : state) : nat :=
  8 * (3 * length (buf (ch_in s)) + 2 * len (ch_q s) + length (buf (ch_out s)))
  + rank (at_pc s).

(** *** What the buffer keeps alive *)

(** Outside its window the backing array of a slice holds nil only: no
    element that has left the slice is still referenced. *)
Definition clean (q : slice) : Prop :=
  forall i x, arr q !! i = Some x ->
              i < off q \/ off q + len q <= i -> x = nilT.

End Chan.

Arguments MkChan {A} buf capacity is_closed.
Arguments buf {A} c.
Arguments capacity {A} c.
Arguments is_closed {A} c.
Arguments SendOk {A} c.
Arguments SendBlock {A}.
Arguments SendPanic {A}.
Arguments RecvOk {A} x c.
Arguments RecvClosed {A}.
Arguments RecvBlock {A}.
Arguments ASend {T} v.
Arguments ACloseIn {T}.
Arguments ARecv {T}.
Arguments AClose {T}.
Arguments ARecvIn {T}.
Arguments ASendOut {T}.
Arguments ATick {T}.
Arguments EvSent {T} v.
Arguments EvRecv {T} v.
Arguments EvEOS {T}.
Arguments EvCloseRet {T}.
Arguments EvPanic {T}.

(** *** Sample runs on a channel of [interface{}] values holding numbers *)

(** A runtime that at least doubles the capacity when it grows a slice. *)
Definition grow_double (c n : nat) : nat := Nat.max n (2 * c).

Definition sample_exec (l : list (@action (option nat))) :=
  exec None grow_double l NewUnboundedChan.

(** One value through the channel: sent, taken into [ch.q], handed to
    [ch.out], received; the dispatcher stops before or after its check of
    the capacity. *)
Definition round_trip (v : option nat) : list (@action (option nat)) :=
  [ASend v; ARecvIn; ATick; ASendOut; ARecv; ATick; ATick].

Definition round_trip_to_check (v : option nat) : list (@action (option nat)) :=
  [ASend v; ARecvIn; ATick; ASendOut; ARecv; ATick].

(** Three values sent, one of them nil, before [Close()]; the dispatcher
    has taken the first into [ch.q] and nobody has received. *)
Definition sample_feed : list (@action (option nat)) :=
  [ATick; ASend (Some 1); ASend None; ARecvIn; ATick; ASend (Some 3)].

(** A run through [Close()] to the end of [closed()]. *)
Definition sample_closed_run : list (@action (option nat)) :=
  [ATick; ASend (Some 1); ARecvIn; ATick; AClose;
   ATick; ATick; ATick; ATick; ATick; ATick].

(** 992 values through, and a 993rd up to the check of the capacity. *)
Definition sample_worn_run : list (@action (option nat)) :=
  ATick :: concat (replicate 992 (round_trip (Some 0)))
        ++ round_trip_to_check (Some 0).

(** A run in which a goroutine closes [In()] itself, and the dispatcher
    then finds it closed and empty. *)
Definition sample_misuse_run : list (@action (option nat)) :=
  [ATick; ASend (Some 1); ACloseIn; ARecvIn; ATick; ASendOut; ARecv; ATick;
   ATick; ARecvIn].

(** A send that slips in between the return of [Close()] and the
    [close(ch.in)] of [closed()]. *)
Definition sample_late_send_run : list (@action (option nat)) :=
  [ATick; ASend (Some 1); ARecvIn; ATick; AClose; ASend (Some 2); ATick].

(** A run to end-of-stream: the one value sent has been received and
    [closed()] has closed [ch.out]. *)
Definition sample_eos_run : list (@action (option nat)) :=
  [ATick; ASend (Some 1); ARecvIn; ATick; AClose; ATick; ATick; ATick; ARecv;
   ATick; ATick].

(** 17 values taken into [ch.q], none received, then [Close()]. *)
Definition sample_backlog_run : list (@action (option nat)) :=
  ATick :: concat (replicate 17 [ASend (Some 0); ARecvIn; ATick]) ++ [AClose].

End Chan.

(** * Proofs: the queue *)

Module QueueSpec.
Import Queue.

Section QueueSpec.

Context {T : Type} (nilT : T).

Implicit Types (h : gmap nat (@item T)) (s : @state T) (ns : list (nat * T)).
Implicit Types (xs : list T) (ops : list (@op T)).

Lemma last_of_nil a : last_of (T:=T) a [] = a.
Proof. reflexivity. Qed.

Lemma last_of_cons a n x ns : last_of a ((n, x) :: ns) = last_of n ns.
Proof.
  unfold last_of. rewrite fmap_cons. simpl.
  destruct (ns.*1) as [|m l] eqn:E; [reflexivity|].
  rewrite last_cons. destruct (last (m :: l)) eqn:E'; [reflexivity|].
  apply last_None in E'. discriminate.
Qed.

Lemma last_of_snoc a ns i x : last_of a (ns ++ [(i, x)]) = i.
Proof. unfold last_of. rewrite fmap_app. simpl. by rewrite last_snoc. Qed.

Lemma last_of_elem a ns : last_of a ns ∈ a :: ns.*1.
Proof.
  revert a. induction ns as [|[n x] ns IH]; intros a.
  - rewrite last_of_nil. set_solver.
  - rewrite last_of_cons, fmap_cons. simpl. specialize (IH n). set_solver.
Qed.

Lemma chain_alloc h a ns : chain h a ns -> forall b, b ∈ a :: ns.*1 -> is_Some (h !! b).
Proof.
  revert a. induction ns as [|[n x] ns IH]; simpl; intros a Hc b Hb.
  - apply list_elem_of_singleton in Hb as ->.
    destruct (h !! a); [eauto | discriminate].
  - destruct Hc as (Ha & _ & Hc). apply elem_of_cons in Hb as [->|Hb].
    + destruct (h !! a); [eauto | discriminate].
    + eapply IH; eauto.
Qed.

Lemma chain_ext h h' a ns :
  (forall b, b ∈ a :: ns.*1 -> h' !! b = h !! b) ->
  chain h a ns -> chain h' a ns.
Proof.
  revert a. induction ns as [|[n x] ns IH]; simpl; intros a Hb Hc.
  - rewrite Hb; [done | set_solver].
  - destruct Hc as (Ha & Hn & Hc).
    rewrite !Hb by set_solver.
    split_and!; [done | done |]. apply IH; [|done].
    intros b Hin. apply Hb. set_solver.
Qed.

Lemma chain_frame h a ns b it :
  b ∉ a :: ns.*1 -> chain h a ns -> chain (<[b := it]> h) a ns.
Proof.
  intros Hb. apply chain_ext. intros c Hc.
  apply lookup_insert_ne. by intros ->.
Qed.

Lemma chain_last h a ns :
  chain h a ns -> next <$> h !! last_of a ns = Some None.
Proof.
  revert a. induction ns as [|[n x] ns IH]; simpl; intros a Hc; [done|].
  rewrite last_of_cons. apply IH, Hc.
Qed.

Lemma chain_snoc h a ns itl i x :
  NoDup (a :: ns.*1) -> i ∉ a :: ns.*1 ->
  chain h a ns ->
  h !! last_of a ns = Some itl ->
  h !! i = Some (Item None x) ->
  chain (<[last_of a ns := Item (Some i) (v itl)]> h) a (ns ++ [(i, x)]).
Proof.
  revert a. induction ns as [|[n y] ns IH]; simpl; intros a Hnd Hi Hc Hl Hx.
  - rewrite last_of_nil in *. rewrite lookup_insert_eq. simpl.
    rewrite !lookup_insert_ne by set_solver. rewrite Hx. done.
  - rewrite last_of_cons in *. destruct Hc as (Ha & Hn & Hc).
    apply NoDup_cons in Hnd as [Hna Hnd].
    assert (last_of n ns ≠ a) as Hne.
    { intros <-. apply Hna. apply last_of_elem. }
    rewrite lookup_insert_ne by done. split; [done|]. split.
    + destruct (decide (last_of n ns = n)) as [E|E].
      * rewrite E in *. rewrite lookup_insert_eq. simpl.
        rewrite Hl in Hn. done.
      * by rewrite lookup_insert_ne.
    + apply IH; [done | set_solver | done | done | done].
Qed.

Lemma rep_nodup_chain s a ns :
  NoDup (a :: ns.*1 ++ pool s) -> NoDup (a :: ns.*1).
Proof. rewrite app_comm_cons. intros H. by apply NoDup_app in H as [? _]. Qed.

Lemma NewQueue_rep h p : wf_pool h p -> rep (NewQueue nilT h p) [].
Proof.
  intros [Hnd Hp]. exists (fresh (dom h)), []. simpl.
  pose proof (is_fresh (dom h)) as Hf.
  split_and!; try done.
  - by rewrite lookup_insert_eq.
  - apply NoDup_cons. split; [|done].
    intros Hin. apply Hf, elem_of_dom, Hp, Hin.
  - intros b Hb. apply lookup_insert_is_Some'. right. by apply Hp.
Qed.

Lemma poolGet_spec pick s (C : list nat) :
  NoDup (C ++ pool s) ->
  (forall b, b ∈ C ++ pool s -> is_Some (heap s !! b)) ->
  exists i it h' p',
    poolGet nilT pick s = Ok (Some i) (State h' p' (qu s)) /\
    h' !! i = Some it /\ (i ∉ C) /\ (i ∉ p') /\ NoDup (C ++ p') /\
    (forall b, b ≠ i -> h' !! b = heap s !! b) /\
    (forall b, b ∈ p' -> b ∈ pool s).
Proof.
  intros Hnd Hal.
  assert (exists i h',
    poolNew nilT s = Ok (Some i) (State h' (pool s) (qu s)) /\
    h' !! i = Some (Item None nilT) /\ (i ∉ C) /\ (i ∉ pool s) /\
    (forall b, b ≠ i -> h' !! b = heap s !! b)) as (i & h' & E & Hi & HC & HP & Hh).
  { eexists _, _. split; [reflexivity|].
    pose proof (is_fresh (dom (heap s))) as Hf.
    split_and!.
    - by rewrite lookup_insert_eq.
    - intros Hin. apply Hf, elem_of_dom, Hal. set_solver.
    - intros Hin. apply Hf, elem_of_dom, Hal. set_solver.
    - intros b Hb. by rewrite lookup_insert_ne. }
  assert (exists i it h' p',
    poolNew nilT s = Ok (Some i) (State h' p' (qu s)) /\
    h' !! i = Some it /\ (i ∉ C) /\ (i ∉ p') /\ NoDup (C ++ p') /\
    (forall b, b ≠ i -> h' !! b = heap s !! b) /\
    (forall b, b ∈ p' -> b ∈ pool s)) as Hnew.
  { exists i, (Item None nilT), h', (pool s). by split_and!. }
  destruct pick as [k|]; [|exact Hnew]. unfold poolGet.
  destruct (pool s !! k) as [c|] eqn:Ek; [|exact Hnew].
  destruct (Hal c) as [it Hit].
  { apply elem_of_app. right. by eapply list_elem_of_lookup_2. }
  exists c, it, (heap s), (delete k (pool s)).
  apply NoDup_app in Hnd as (HndC & Hdisj & HndP).
  assert (c ∈ pool s) as Hc by (by eapply list_elem_of_lookup_2).
  assert (forall b, b ∈ delete k (pool s) -> b ∈ pool s) as Hsub.
  { intros b Hb. eapply elem_of_sublist; [exact Hb | apply sublist_delete]. }
  split_and!; try done.
  - intros HcC. by apply (Hdisj c).
  - clear -HndP Ek. revert k Ek.
    induction (pool s) as [|d l IH]; intros [|k] Ek; simpl in *; try done.
    + injection Ek as ->. by apply NoDup_cons in HndP as [? _].
    + apply NoDup_cons in HndP as [Hd Hl]. apply not_elem_of_cons. split.
      * intros ->. apply Hd. by eapply list_elem_of_lookup_2.
      * by eapply IH.
  - apply NoDup_app. split_and!; [done | |].
    + intros b HbC Hb. apply (Hdisj b HbC), Hsub, Hb.
    + eapply sublist_NoDup; [exact HndP | apply sublist_delete].
Qed.

Lemma walk_chain h a ns fuel :
  chain h a ns -> length ns < fuel -> walk h fuel a = ns.*2.
Proof.
  revert a fuel. induction ns as [|[n x] ns IH]; simpl; intros a fuel Hc Hlt.
  - destruct fuel; [lia|]. simpl. destruct (h !! a) as [[[b | ] y] | ]; done.
  - destruct fuel; [lia|]. simpl. destruct Hc as (Ha & Hn & Hc).
    destruct (h !! a) as [[nx y]|]; [|done]. simpl in Ha.
    injection Ha as ->. destruct (h !! n) as [it|] eqn:En; [|done].
    simpl in Hn. injection Hn as ->. f_equal. apply IH; [done | lia].
Qed.

Lemma rep_elements s xs : rep s xs -> elements s = xs.
Proof.
  intros (a & ns & Hh & Ht & Hc & Hxs & Hnd & Hp & Hl).
  unfold elements. rewrite Hh, <- Hxs. apply walk_chain; [done|].
  assert (NoDup (a :: ns.*1)) as Hnd'.
  { rewrite app_comm_cons in Hnd. by apply NoDup_app in Hnd as [? _]. }
  assert (a :: ns.*1 ⊆+ (map_to_list (heap s)).*1) as Hsub.
  { apply NoDup_submseteq; [done|]. intros b Hb.
    destruct (chain_alloc _ _ _ Hc b Hb) as [it Hit].
    apply list_elem_of_fmap. exists (b, it). split; [done|].
    by apply elem_of_map_to_list. }
  apply submseteq_length in Hsub.
  rewrite length_fmap, length_map_to_list in Hsub. simpl in Hsub.
  rewrite length_fmap in Hsub. lia.
Qed.

Lemma In_spec s xs fuel pick x :
  rep s xs ->
  exists s', In nilT (S fuel) pick x s = Ok tt s' /\ rep s' (xs ++ [x]) /\
             len (qu s') = ((len (qu s) + 1) mod 2 ^ 64)%Z /\
             head (qu s') = head (qu s).
Proof.
  intros (a & ns & Hh & Ht & Hc & Hxs & Hnd & Hp & Hl).
  destruct (poolGet_spec pick s (a :: ns.*1)) as
    (i & it & h' & p' & Eg & Hi & HiC & Hip & Hnd' & Hh' & Hp').
  { done. }
  { intros b Hb. apply elem_of_app in Hb as [Hb|Hb].
    - eapply chain_alloc; eauto.
    - by apply Hp. }
  destruct s as [h p [hd tl ln]]. simpl in *. subst hd tl.
  pose proof (chain_last _ _ _ Hc) as Hlast.
  destruct (h !! last_of a ns) as [[nx vl]|] eqn:El; [|done].
  simpl in Hlast. injection Hlast as ->.
  assert (last_of a ns ≠ i) as Hli.
  { intros <-. apply HiC, last_of_elem. }
  unfold In, mbind, M_bind, bind. rewrite Eg. simpl. rewrite Hi. simpl.
  rewrite lookup_insert_eq. simpl. rewrite insert_insert_eq.
  unfold set_heap. simpl. unfold In_round, casItem, mbind, M_bind, bind. simpl.
  rewrite lookup_insert_ne by done. rewrite Hh' by done. rewrite El. simpl.
  rewrite decide_True by done. simpl.
  rewrite lookup_insert_ne by done. rewrite Hh' by done. rewrite El. simpl.
  rewrite lookup_insert_ne by done. rewrite Hh' by done. rewrite El. simpl.
  rewrite decide_True by done. simpl.
  eexists. split; [reflexivity|]. split; [|split; reflexivity].
  assert (NoDup (a :: ns.*1)) as HndC.
  { rewrite app_comm_cons in Hnd. by apply NoDup_app in Hnd as [? _]. }
  exists a, (ns ++ [(i, x)]). simpl. split_and!.
  - done.
  - by rewrite last_of_snoc.
  - change vl with (v (Item None vl)). apply chain_snoc; try done.
    + apply chain_frame; [done|]. eapply chain_ext; [|exact Hc].
      intros b Hb. apply Hh'. intros ->. done.
    + rewrite lookup_insert_ne by done. rewrite Hh' by done. done.
    + by rewrite lookup_insert_eq.
  - rewrite fmap_app. by rewrite Hxs.
  - rewrite fmap_app. simpl. rewrite <- app_assoc. simpl.
    rewrite app_comm_cons. apply NoDup_app. rewrite app_comm_cons in Hnd'.
    apply NoDup_app in Hnd' as (H1 & H2 & H3). split_and!; [done | |].
    + intros b Hb. apply not_elem_of_cons. split.
      * intros ->. done.
      * by apply H2.
    + apply NoDup_cons. done.
  - intros b Hb. apply lookup_insert_is_Some'. right.
    apply lookup_insert_is_Some'. right.
    assert (b ≠ i) by (intros ->; done). rewrite Hh' by done. apply Hp, Hp', Hb.
  - subst ln. rewrite length_app. simpl.
    rewrite Nat2Z.inj_add. simpl. by rewrite Zplus_mod_idemp_l.
Qed.



Lemma Out_on_sentinel s a it fuel :
  head (qu s) = Some a -> tail (qu s) = Some a ->
  heap s !! a = Some it -> next it = None ->
  Out nilT (S fuel) s = Ok nilT s.
Proof.
  intros Hh Ht Ha Hn. destruct s as [h p [hd tl ln]]. simpl in *. subst hd tl.
  unfold Out, loop, Out_round, mbind, M_bind, bind. simpl.
  rewrite Ha, Hn. simpl. rewrite !decide_True by done. done.
Qed.

Lemma rep_nil_inv s :
  rep s [] ->
  exists a it, head (qu s) = Some a /\ tail (qu s) = Some a /\
               heap s !! a = Some it /\ next it = None.
Proof.
  intros (a & ns & Hh & Ht & Hc & Hxs & _).
  destruct ns; [|done]. simpl in Hc. rewrite last_of_nil in Ht.
  destruct (heap s !! a) as [it|] eqn:E; [|done].
  exists a, it. simpl in Hc. split_and!; congruence.
Qed.

Lemma Out_nil_spec s fuel : rep s [] -> Out nilT (S fuel) s = Ok nilT s.
Proof.
  intros (a & it & ? & ? & ? & ?)%rep_nil_inv. by eapply Out_on_sentinel.
Qed.

Lemma Out_cons_spec s x xs fuel :
  rep s (x :: xs) ->
  exists s', Out nilT (S fuel) s = Ok x s' /\ rep s' xs /\
             len (qu s') = ((len (qu s) + uint64_max) mod 2 ^ 64)%Z /\
             head (qu s') ≠ head (qu s) /\
             (exists a, head (qu s) = Some a /\ pool s' = a :: pool s) /\
             loadItem (Lnext (head (qu s))) s = Ok (head (qu s')) s.
Proof.
  intros (a & ns & Hh & Ht & Hc & Hxs & Hnd & Hp & Hl).
  destruct ns as [|[n y] ns]; [done|]. simpl in Hxs. injection Hxs as -> Hxs.
  rewrite last_of_cons in Ht. destruct Hc as (Ha & Hn & Hc).
  destruct s as [h p [hd tl ln]]. simpl in *. subst hd tl.
  destruct (h !! a) as [[nx va]|] eqn:Ea; [|done].
  simpl in Ha. injection Ha as ->.
  destruct (h !! n) as [[nn vn]|] eqn:En; [|done].
  simpl in Hn. injection Hn as ->.
  apply NoDup_cons in Hnd as [Hna Hnd].
  assert (a ≠ last_of n ns) as Hal.
  { intros ->. apply Hna. rewrite app_comm_cons. apply elem_of_app. left.
    apply last_of_elem. }
  assert (a ≠ n) as Han by set_solver.
  unfold Out, loop, Out_round, casItem, mbind, M_bind, bind. simpl.
  rewrite Ea. simpl. rewrite decide_True by done.
  rewrite decide_False by congruence. simpl. rewrite En. simpl.
  rewrite decide_True by done. simpl.
  eexists. split; [reflexivity|]. simpl. split_and!.
  - exists n, ns. simpl. split_and!; try done.
    + apply NoDup_cons in Hnd as [Hn1 Hn2]. apply NoDup_cons. split.
      * rewrite elem_of_app, elem_of_cons. rewrite elem_of_app in Hn1.
        intros [?|[?|?]]; [tauto | congruence | tauto].
      * apply NoDup_app in Hn2 as (H1 & H2 & H3).
        apply NoDup_app. split_and!; [done | |].
        -- intros b Hb. apply not_elem_of_cons. split; [|by apply H2].
           intros ->. apply Hna. set_solver.
        -- apply NoDup_cons. split; [|done]. set_solver.
    + intros b [->|Hb]%elem_of_cons; [by rewrite Ea | by apply Hp].
    + subst ln. rewrite Zplus_mod_idemp_l. unfold uint64_max.
      replace (Z.of_nat (S (length xs)) + (2 ^ 64 - 1))%Z
        with (Z.of_nat (length xs) + 1 * 2 ^ 64)%Z by lia.
      by rewrite Z_mod_plus_full.
  - done.
  - congruence.
  - eauto.
  - done.
Qed.

Lemma rep_single_inv s x :
  rep s [x] -> loadItem (Lnext (head (qu s))) s = Ok (tail (qu s)) s.
Proof.
  intros (a & ns & Hh & Ht & Hc & Hxs & _).
  destruct ns as [|[n y] [|? ?]]; try done.
  destruct Hc as (Ha & _). rewrite Hh, Ht. simpl.
  destruct (heap s !! a) as [it|]; [|done]. simpl in Ha. by injection Ha as ->.
Qed.

Lemma run_op_spec s xs fuel o :
  rep s xs ->
  exists r s', run_op nilT (S fuel) o s = Ok r s' /\ rep s' (model_op o xs) /\
    r = match o with OpIn _ _ => None | OpOut => Some (default nilT (xs !! 0)) end.
Proof.
  intros Hr. destruct o as [pick x|]; simpl.
  - destruct (In_spec s xs fuel pick x Hr) as (s' & E & Hr' & _).
    exists None, s'. unfold mbind, M_bind, bind. by rewrite E.
  - destruct xs as [|x xs].
    + exists (Some nilT), s. unfold mbind, M_bind, bind.
      by rewrite (Out_nil_spec _ _ Hr).
    + destruct (Out_cons_spec s x xs fuel Hr) as (s' & E & Hr' & _).
      exists (Some x), s'. unfold mbind, M_bind, bind. by rewrite E.
Qed.

Lemma run_spec s xs fuel ops :
  rep s xs ->
  exists rs s', run nilT (S fuel) ops s = Ok rs s' /\ rep s' (model_from xs ops).
Proof.
  revert s xs. induction ops as [|o ops IH]; intros s xs Hr.
  - by exists [], s.
  - destruct (run_op_spec s xs fuel o Hr) as (r & s1 & E1 & Hr1 & _).
    destruct (IH s1 _ Hr1) as (rs & s2 & E2 & Hr2).
    exists (r :: rs), s2. simpl. unfold mbind, M_bind, bind.
    by rewrite E1, E2.
Qed.

Lemma reachable_rep s : reachable nilT s -> rep s (elements s).
Proof.
  intros (h & p & fuel & ops & rs & Hwf & E).
  destruct (run_spec _ [] fuel ops (NewQueue_rep h p Hwf)) as (rs' & s' & E' & Hr).
  rewrite E in E'. injection E' as -> ->.
  by rewrite (rep_elements _ _ Hr).
Qed.

Lemma wf_pool_nil : wf_pool (T:=T) ∅ [].
Proof. split; [constructor | intros b Hb; inversion Hb]. Qed.

Lemma reachable_New : reachable nilT (NewQueue nilT ∅ []).
Proof. exists ∅, [], 0, [], []. split; [apply wf_pool_nil | reflexivity]. Qed.

Lemma sub_one_uint64 (n : Z) :
  ((n + uint64_max) mod 2 ^ 64 = (n - 1) mod 2 ^ 64)%Z.
Proof.
  unfold uint64_max.
  replace (n + (2 ^ 64 - 1))%Z with (n - 1 + 1 * 2 ^ 64)%Z by lia.
  apply Z_mod_plus_full.
Qed.

Lemma In_all_spec s xs fuel (ins : list (option nat * T)) :
  rep s xs ->
  exists s', In_all nilT (S fuel) ins s = Ok tt s' /\ rep s' (xs ++ ins.*2).
Proof.
  revert s xs. induction ins as [|[pick x] ins IH]; intros s xs Hr.
  - exists s. simpl. by rewrite app_nil_r.
  - destruct (In_spec s xs fuel pick x Hr) as (s1 & E1 & Hr1 & _).
    destruct (IH s1 _ Hr1) as (s2 & E2 & Hr2).
    exists s2. simpl. unfold mbind, M_bind, bind. rewrite E1, E2.
    by rewrite <- app_assoc in Hr2.
Qed.

Lemma Out_n_spec s xs ys fuel :
  rep s (xs ++ ys) ->
  exists s', Out_n nilT (S fuel) (length xs) s = Ok xs s' /\ rep s' ys.
Proof.
  revert s. induction xs as [|x xs IH]; intros s Hr.
  - by exists s.
  - destruct (Out_cons_spec s x (xs ++ ys) fuel Hr) as (s1 & E1 & Hr1 & _).
    destruct (IH s1 Hr1) as (s2 & E2 & Hr2).
    exists s2. simpl. unfold mbind, M_bind, bind. rewrite E1. simpl in E2.
    by rewrite E2.
Qed.

(** *** The claims about the queue *)

(** C3. On a queue fresh from [New], [In] of [v1..vn] followed by [n] calls
    of [Out] returns [v1..vn] in that order, and one more [Out] returns nil,
    the result for an empty queue. Every call returns after one round of its
    loop, whatever items [sync.Pool] hands out. *)
Theorem fifo_single_goroutine h p fuel (ins : list (option nat * T)) :
  wf_pool h p ->
  exists s',
    (In_all nilT (S fuel) ins;;
     outs ← Out_n nilT (S fuel) (length ins);
     e ← Out nilT (S fuel);
     mret (outs, e)) (NewQueue nilT h p) = Ok (ins.*2, nilT) s'.
Proof.
  intros Hwf.
  destruct (In_all_spec _ [] fuel ins (NewQueue_rep h p Hwf)) as (s1 & E1 & Hr1).
  simpl in Hr1. rewrite <- (app_nil_r (ins.*2)) in Hr1.
  destruct (Out_n_spec s1 (ins.*2) [] fuel Hr1) as (s2 & E2 & Hr2).
  rewrite length_fmap in E2.
  exists s2. unfold mbind, M_bind, bind. rewrite E1, E2.
  by rewrite (Out_nil_spec _ fuel Hr2).
Qed.


(** The counter in the runs of one goroutine. [In] adds one to [len], an
    [Out] that removes an element subtracts one (by adding [^uint64(0)]),
    an [Out] on the empty queue leaves it as it is; so between the
    operations of one goroutine [Len()] is the number of elements, as a
    [uint64]: exactly that number as long as it is below [2^64]. *)
Theorem len_counts_elements s fuel :
  reachable nilT s ->
  Len s = Ok (Z.of_nat (length (elements s)) mod 2 ^ 64)%Z s /\
  ((Z.of_nat (length (elements s)) < 2 ^ 64)%Z ->
   Len s = Ok (Z.of_nat (length (elements s))) s) /\
  (forall pick x, exists s',
     In nilT (S fuel) pick x s = Ok tt s' /\
     elements s' = elements s ++ [x] /\
     len (qu s') = ((len (qu s) + 1) mod 2 ^ 64)%Z) /\
  (exists y s',
     Out nilT (S fuel) s = Ok y s' /\
     elements s' = drop 1 (elements s) /\
     (elements s = [] -> len (qu s') = len (qu s)) /\
     (elements s ≠ [] -> len (qu s') = ((len (qu s) - 1) mod 2 ^ 64)%Z)).
Proof.
  intros Hr%reachable_rep.
  assert (len (qu s) = (Z.of_nat (length (elements s)) mod 2 ^ 64)%Z) as Hl.
  { by destruct Hr as (a & ns & _ & _ & _ & _ & _ & _ & Hl). }
  unfold Len. split_and!.
  - by rewrite Hl.
  - intros Hlt. rewrite Hl. by rewrite Z.mod_small by lia.
  - intros pick x.
    destruct (In_spec s _ fuel pick x Hr) as (s' & E & Hr' & Hl' & _).
    exists s'. by rewrite (rep_elements _ _ Hr').
  - destruct (elements s) as [|x xs] eqn:Ee.
    + exists nilT, s. by rewrite (Out_nil_spec _ _ Hr).
    + destruct (Out_cons_spec s x xs fuel Hr) as (s' & E & Hr' & Hl' & _).
      exists x, s'. rewrite (rep_elements _ _ Hr').
      split_and!; [done | done | done |].
      intros _. by rewrite Hl', sub_one_uint64.
Qed.


(** C9. nil is a value like any other for [In]: when it is at the front,
    [Out] returns nil, unlinks its item and decrements [len]. On an empty
    queue [In(nil)] followed by [Out()] returns the same nil as [Out()] on
    the empty queue does, but [head] has moved to the new item and [len]
    has gone up and down again. *)
Theorem nil_value_is_dequeued_as_nil s fuel :
  reachable nilT s ->
  (forall rest, elements s = nilT :: rest ->
     exists s', Out nilT (S fuel) s = Ok nilT s' /\
       elements s' = rest /\
       len (qu s') = ((len (qu s) - 1) mod 2 ^ 64)%Z /\
       head (qu s') ≠ head (qu s)) /\
  (elements s = [] ->
     forall pick, exists s1 s2,
       Out nilT (S fuel) s = Ok nilT s /\
       In nilT (S fuel) pick nilT s = Ok tt s1 /\
       Out nilT (S fuel) s1 = Ok nilT s2 /\
       elements s1 = [nilT] /\ elements s2 = [] /\
       len (qu s1) = ((len (qu s) + 1) mod 2 ^ 64)%Z /\
       len (qu s2) = len (qu s) /\
       head (qu s1) = head (qu s) /\
       head (qu s2) = tail (qu s1) /\
       head (qu s2) ≠ head (qu s)).
Proof.
  intros Hr%reachable_rep. split.
  - intros rest He. rewrite He in Hr.
    destruct (Out_cons_spec s nilT rest fuel Hr) as (s' & E & Hr' & Hl' & Hh & _).
    exists s'. rewrite (rep_elements _ _ Hr'), Hl', sub_one_uint64. done.
  - intros He pick. rewrite He in Hr.
    destruct (In_spec s [] fuel pick nilT Hr) as (s1 & E1 & Hr1 & Hl1 & Hh1).
    destruct (Out_cons_spec s1 nilT [] fuel Hr1)
      as (s2 & E2 & Hr2 & Hl2 & Hh2 & _ & Hnx).
    exists s1, s2. rewrite (rep_elements _ _ Hr1), (rep_elements _ _ Hr2).
    assert (len (qu s) = 0%Z) as Hl0.
    { by destruct Hr as (? & ? & _ & _ & _ & _ & _ & _ & ->). }
    rewrite (rep_single_inv _ _ Hr1) in Hnx. injection Hnx as Hnx.
    split_and!; try done.
    + by apply Out_nil_spec.
    + rewrite Hl2, sub_one_uint64, Hl1, Hl0. done.
    + congruence.
Qed.

(** *** Further properties of the queue *)

(** [In] is [In_link] followed by [In_finish]. *)
(** Case analysis on the outcomes of the steps of a monadic term, innermost
    first. *)
Ltac split_outcomes :=
  repeat first
    [ progress cbn beta iota
    | match goal with
      | |- context [match ?x with _ => _ end] =>
          lazymatch x with
          | context [match _ with _ => _ end] => fail
          | _ => destruct x eqn:?
          end
      end ].

Lemma In_round_split (i : ptr) s :
  In_round i s =
  match In_link_round i s with
  | Ok (Some last) s1 => (In_finish (last, i);; ret (Some tt)) s1
  | Ok None s1 => Ok None s1
  | Panic => Panic
  | Spin => Spin
  end.
Proof.
  unfold In_round, In_link_round, In_finish, mbind, M_bind, bind, ret.
  split_outcomes; simpl in *; congruence.
Qed.

Lemma In_split fuel pick x s :
  In nilT fuel pick x s = (p ← In_link nilT fuel pick x; In_finish p) s.
Proof.
  unfold In, In_link, mbind, M_bind, bind.
  destruct (poolGet nilT pick s) as [i s1| |]; [|done..].
  destruct (storeItem (Lnext i) None s1) as [[] s2| |]; [|done..].
  destruct (setV i x s2) as [[] s3| |]; [|done..].
  revert s3. induction fuel as [|fuel IH]; intros s3; [done|].
  simpl. unfold mbind, M_bind, bind.
  rewrite In_round_split.
  destruct (In_link_round i s3) as [[last|] s4| |]; [|apply IH|done..].
  unfold In_finish, mbind, M_bind, bind, ret.
  split_outcomes; simpl in *; try congruence. by destruct a0.
Qed.

(** The rounds of [In] and [Out], computed on a memory given piece by
    piece. *)

Lemma In_link_round_links h p a l ln j vl :
  h !! l = Some (Item None vl) ->
  In_link_round (Some j) (State h p (MkQueue a (Some l) ln)) =
  Ok (Some (Some l))
     (State (<[l := Item (Some j) vl]> h) p (MkQueue a (Some l) ln)) /\
  In_round (T:=T) (Some j) (State h p (MkQueue a (Some l) ln)) =
  Ok (Some tt)
     (State (<[l := Item (Some j) vl]> h) p
            (MkQueue a (Some j) ((ln + 1) mod 2 ^ 64)%Z)).
Proof.
  intros Hl.
  split; unfold In_round, In_link_round, casItem, mbind, M_bind, bind; simpl;
    repeat (first [rewrite Hl | rewrite decide_True by done]; simpl); done.
Qed.

Lemma In_round_helps h p a l ln (j : ptr) m vl :
  h !! l = Some (Item (Some m) vl) ->
  In_round (T:=T) j (State h p (MkQueue a (Some l) ln)) =
  Ok None (State h p (MkQueue a (Some m) ln)).
Proof.
  intros Hl.
  unfold In_round, casItem, mbind, M_bind, bind. simpl.
  repeat (first [rewrite Hl | rewrite decide_True by done]; simpl). done.
Qed.

Lemma Out_round_takes h p a tl ln n va nn y :
  tl ≠ a ->
  h !! a = Some (Item (Some n) va) -> h !! n = Some (Item nn y) ->
  Out_round nilT (State h p (MkQueue (Some a) (Some tl) ln)) =
  Ok (Some y)
     (State h (a :: p) (MkQueue (Some n) (Some tl) ((ln + uint64_max) mod 2 ^ 64)%Z)).
Proof.
  intros Hne Ha Hn.
  unfold Out_round, casItem, mbind, M_bind, bind. simpl.
  repeat (first [rewrite Ha | rewrite Hn | rewrite decide_True by done
                | rewrite decide_False by congruence]; simpl).
  done.
Qed.

Lemma Out_round_helps h p a ln n va :
  h !! a = Some (Item (Some n) va) ->
  Out_round nilT (State h p (MkQueue (Some a) (Some a) ln)) =
  Ok None (State h p (MkQueue (Some a) (Some n) ln)).
Proof.
  intros Ha.
  unfold Out_round, casItem, mbind, M_bind, bind. simpl.
  repeat (first [rewrite Ha | rewrite decide_True by done]; simpl). done.
Qed.

(** [In] and [In_link] up to their loops: an item [j] holding the value,
    with nil for [next], taken from the pool or new. *)
Lemma In_prep_spec pick s (C : list nat) x :
  NoDup (C ++ pool s) ->
  (forall b, b ∈ C ++ pool s -> is_Some (heap s !! b)) ->
  exists j h2 p',
    (forall fuel, In nilT fuel pick x s =
                  loop fuel (In_round (Some j)) (State h2 p' (qu s))) /\
    (forall fuel, In_link nilT fuel pick x s =
                  (last ← loop fuel (In_link_round (Some j)); ret (last, Some j))
                    (State h2 p' (qu s))) /\
    h2 !! j = Some (Item None x) /\ (j ∉ C) /\ (j ∉ p') /\
    NoDup (C ++ p') /\
    (forall b, b ≠ j -> h2 !! b = heap s !! b) /\
    (forall b, b ∈ p' -> b ∈ pool s).
Proof.
  intros Hnd Hal.
  destruct (poolGet_spec pick s C Hnd Hal)
    as (j & it & h' & p' & Eg & Hj & HjC & Hjp & Hnd' & Hh' & Hp').
  exists j, (<[j := Item None x]> h'), p'. split_and!; try done.
  - intros fuel. unfold In, mbind, M_bind, bind. rewrite Eg. simpl.
    rewrite Hj. simpl. rewrite lookup_insert_eq. simpl.
    by rewrite insert_insert_eq.
  - intros fuel. unfold In_link, mbind, M_bind, bind. rewrite Eg. simpl.
    rewrite Hj. simpl. rewrite lookup_insert_eq. simpl.
    by rewrite insert_insert_eq.
  - by rewrite lookup_insert_eq.
  - intros b Hb. rewrite lookup_insert_ne by done. by apply Hh'.
Qed.

Lemma chain_app_next h a ns i x :
  chain h a (ns ++ [(i, x)]) ->
  next <$> h !! last_of a ns = Some (Some i).
Proof.
  revert a. induction ns as [|[n y] ns IH]; simpl; intros a Hc.
  - rewrite last_of_nil. apply Hc.
  - rewrite last_of_cons. apply IH, Hc.
Qed.

(** Linking [j] behind the last item keeps the shape. *)
Lemma link_shape h2 (p' : list nat) a ns j x vl :
  chain h2 a ns -> NoDup (a :: ns.*1 ++ p') ->
  j ∉ a :: ns.*1 -> j ∉ p' ->
  h2 !! last_of a ns = Some (Item None vl) ->
  h2 !! j = Some (Item None x) ->
  (forall b, b ∈ p' -> is_Some (h2 !! b)) ->
  chain (<[last_of a ns := Item (Some j) vl]> h2) a (ns ++ [(j, x)]) /\
  NoDup (a :: (ns ++ [(j, x)]).*1 ++ p') /\
  (forall b, b ∈ p' -> is_Some (<[last_of a ns := Item (Some j) vl]> h2 !! b)).
Proof.
  intros Hc Hnd HjC Hjp Hl Hj Hp.
  assert (NoDup (a :: ns.*1)) as HndC.
  { rewrite app_comm_cons in Hnd. by apply NoDup_app in Hnd as [? _]. }
  split_and!.
  - change vl with (v (Item None vl)). by apply chain_snoc.
  - rewrite fmap_app. simpl. rewrite <- app_assoc. simpl.
    rewrite app_comm_cons. apply NoDup_app. rewrite app_comm_cons in Hnd.
    apply NoDup_app in Hnd as (H1 & H2 & H3). split_and!; [done | |].
    + intros b Hb. apply not_elem_of_cons. split; [by intros -> | by apply H2].
    + by apply NoDup_cons.
  - intros b Hb. apply lookup_insert_is_Some'. right. by apply Hp.
Qed.

Lemma repg_alloc s a ns tl d :
  repg s a ns tl d ->
  NoDup ((a :: ns.*1) ++ pool s) /\
  forall b, b ∈ (a :: ns.*1) ++ pool s -> is_Some (heap s !! b).
Proof.
  intros (Hh & Ht & Hc & Hnd & Hp & Hl). split; [done|].
  intros b [Hb|Hb]%elem_of_app; [by eapply chain_alloc | by apply Hp].
Qed.

Lemma rep_repg s xs :
  rep s xs <-> exists a ns, repg s a ns (last_of a ns) 0 /\ ns.*2 = xs.
Proof.
  unfold rep, repg. split.
  - intros (a & ns & Hh & Ht & Hc & Hxs & Hnd & Hp & Hl).
    exists a, ns. rewrite Z.add_0_r. split_and!; try done.
    by rewrite <- Hxs, length_fmap in Hl.
  - intros (a & ns & (Hh & Ht & Hc & Hnd & Hp & Hl) & Hxs).
    exists a, ns. rewrite Z.add_0_r in Hl. split_and!; try done.
    by rewrite <- Hxs, length_fmap.
Qed.

(** An [In] that has linked its item and not yet moved [tail] nor
    counted. *)
Lemma In_link_spec s a ns d fuel pick x :
  repg s a ns (last_of a ns) d ->
  exists i s1,
    In_link nilT (S fuel) pick x s = Ok (Some (last_of a ns), Some i) s1 /\
    repg s1 a (ns ++ [(i, x)]) (last_of a ns) (d - 1).
Proof.
  intros Hr. destruct (repg_alloc _ _ _ _ _ Hr) as [Hnd0 Hal].
  destruct Hr as (Hh & Ht & Hc & Hnd & Hp & Hl).
  destruct (In_prep_spec pick s (a :: ns.*1) x Hnd0 Hal)
    as (j & h2 & p' & _ & E & Hj & HjC & Hjp & Hnd' & Hh2 & Hp').
  destruct s as [h p [hd tl ln]]. simpl in *. subst hd tl.
  pose proof (chain_last _ _ _ Hc) as Hlast.
  destruct (h !! last_of a ns) as [[nx vl]|] eqn:El; [|done].
  simpl in Hlast. injection Hlast as ->.
  assert (last_of a ns ≠ j) as Hlj.
  { intros <-. apply HjC, last_of_elem. }
  assert (h2 !! last_of a ns = Some (Item None vl)) as El2.
  { by rewrite Hh2. }
  destruct (In_link_round_links h2 p' (Some a) (last_of a ns) ln j vl El2)
    as (E1 & _).
  exists j. eexists. split.
  - rewrite E. simpl. unfold mbind, M_bind, bind. rewrite E1. reflexivity.
  - destruct (link_shape h2 p' a ns j x vl) as (H1 & H2 & H3); try done.
    + eapply chain_ext; [|exact Hc]. intros b Hb. apply Hh2. by intros ->.
    + intros b Hb. assert (b ≠ j) by (by intros ->).
      rewrite Hh2 by done. by apply Hp, Hp'.
    + unfold repg. simpl. split_and!; try done.
      rewrite Hl, length_app. simpl. f_equal. lia.
Qed.

(** The interrupted [In] resumes: [tail] moves to its item unless somebody
    has moved it already, and [len] is counted up. *)
Lemma In_finish_spec s a ns tl d (l i : nat) :
  repg s a ns tl d ->
  exists s',
    In_finish (Some l, Some i) s = Ok tt s' /\
    repg s' a ns (if decide (tl = l) then i else tl) (d + 1) /\
    heap s' = heap s /\ pool s' = pool s.
Proof.
  intros (Hh & Ht & Hc & Hnd & Hp & Hl).
  destruct s as [h p [hd t ln]]. simpl in *. subst hd t.
  unfold In_finish, casItem, mbind, M_bind, bind. simpl.
  assert (((ln + 1) mod 2 ^ 64)%Z
          = ((Z.of_nat (length ns) + (d + 1)) mod 2 ^ 64)%Z) as Hlen.
  { rewrite Hl, Zplus_mod_idemp_l. f_equal. lia. }
  destruct (decide (tl = l)) as [->|Hne].
  - rewrite decide_True by done. simpl. eexists. split; [reflexivity|].
    unfold repg. simpl. by split_and!.
  - rewrite decide_False by congruence. simpl. eexists.
    split; [reflexivity|]. unfold repg. simpl. by split_and!.
Qed.

(** [Out] while [head] and [tail] differ, whatever [tail] is on. *)
Lemma Out_step_spec s a n y ns tl d fuel :
  repg s a ((n, y) :: ns) tl d -> tl ≠ a ->
  exists s',
    Out nilT (S fuel) s = Ok y s' /\
    repg s' n ns tl d /\ pool s' = a :: pool s /\ heap s' = heap s.
Proof.
  intros (Hh & Ht & Hc & Hnd & Hp & Hl) Hne.
  destruct Hc as (Ha & Hn & Hc).
  destruct s as [h p [hd t ln]]. simpl in *. subst hd t.
  destruct (h !! a) as [[nx va]|] eqn:Ea; [|done].
  simpl in Ha. injection Ha as ->.
  destruct (h !! n) as [[nn vn]|] eqn:En; [|done].
  simpl in Hn. injection Hn as ->.
  eexists. split.
  - unfold Out. simpl. unfold mbind, M_bind, bind.
    by rewrite (Out_round_takes h p a tl ln n va nn y Hne Ea En).
  - unfold repg. simpl. split_and!; try done.
    + apply NoDup_cons in Hnd as [Hna Hnd].
      apply NoDup_cons in Hnd as [Hn1 Hn2]. apply NoDup_cons. split.
      * rewrite elem_of_app, elem_of_cons. rewrite elem_of_app in Hn1.
        intros [?|[?|?]]; [tauto | | tauto]. subst. apply Hna. set_solver.
      * apply NoDup_app in Hn2 as (H1 & H2 & H3).
        apply NoDup_app. split_and!; [done | |].
        -- intros b Hb. apply not_elem_of_cons. split; [|by apply H2].
           intros ->. apply Hna. set_solver.
        -- apply NoDup_cons. split; [|done]. set_solver.
    + intros b [->|Hb]%elem_of_cons; [by rewrite Ea | by apply Hp].
    + rewrite Hl, Zplus_mod_idemp_l. unfold uint64_max.
      replace (Z.of_nat (S (length ns)) + d + (2 ^ 64 - 1))%Z
        with (Z.of_nat (length ns) + d + 1 * 2 ^ 64)%Z by lia.
      by rewrite Z_mod_plus_full.
Qed.

(** [Out] finding [tail] still on the sentinel although an item is linked
    behind it: the first round moves [tail] on, the second takes the
    value. *)
Lemma Out_help_spec s a n y ns d fuel :
  repg s a ((n, y) :: ns) a d ->
  exists s',
    Out nilT (S (S fuel)) s = Ok y s' /\
    repg s' n ns n d /\ pool s' = a :: pool s /\
    Out nilT 1 s = Spin.
Proof.
  intros Hr. pose proof Hr as (Hh & Ht & Hc & Hnd & Hp & Hl).
  destruct Hc as (Ha & Hn & Hc).
  destruct s as [h p [hd t ln]]. simpl in *. subst hd t.
  destruct (h !! a) as [[nx va]|] eqn:Ea; [|done].
  simpl in Ha. injection Ha as ->.
  assert (n ≠ a) as Hna.
  { apply NoDup_cons in Hnd as [Hna _]. intros ->. apply Hna. set_solver. }
  destruct (Out_step_spec (State h p (MkQueue (Some a) (Some n) ln))
              a n y ns n d fuel) as (s' & E & Hr' & Hp' & _); [|done|].
  { unfold repg. simpl. split_and!; try done. by rewrite Ea. }
  exists s'. split_and!; try done.
  - unfold Out in *. cbn [loop]. unfold mbind, M_bind, bind.
    rewrite (Out_round_helps h p a ln n va Ea). exact E.
  - unfold Out. cbn [loop]. unfold mbind, M_bind, bind.
    by rewrite (Out_round_helps h p a ln n va Ea).
Qed.

(** [In] finding [tail] one item behind: the first round moves [tail] on,
    the second links the new item. *)
Lemma In_help_spec s a ns i x d fuel pick z :
  repg s a (ns ++ [(i, x)]) (last_of a ns) d ->
  exists j s',
    In nilT (S (S fuel)) pick z s = Ok tt s' /\
    repg s' a (ns ++ [(i, x); (j, z)]) j d /\
    In nilT 1 pick z s = Spin.
Proof.
  intros Hr. destruct (repg_alloc _ _ _ _ _ Hr) as [Hnd0 Hal].
  destruct Hr as (Hh & Ht & Hc & Hnd & Hp & Hl).
  destruct (In_prep_spec pick s (a :: (ns ++ [(i, x)]).*1) z Hnd0 Hal)
    as (j & h2 & p' & E & _ & Hj & HjC & Hjp & Hnd' & Hh2 & Hp').
  destruct s as [h p [hd tl ln]]. simpl in *. subst hd tl.
  assert (forall b, b ∈ a :: (ns ++ [(i, x)]).*1 -> h2 !! b = h !! b) as Hfr.
  { intros b Hb. apply Hh2. by intros ->. }
  assert (chain h2 a (ns ++ [(i, x)])) as Hc2 by (by eapply chain_ext).
  (* round one: [tail] is on [last_of a ns], whose [next] is [i] *)
  pose proof (chain_app_next _ _ _ _ _ Hc2) as Hnx.
  destruct (h2 !! last_of a ns) as [[nx vl]|] eqn:El; [|done].
  simpl in Hnx. injection Hnx as ->.
  pose proof (In_round_helps h2 p' (Some a) (last_of a ns) ln (Some j) i vl El)
    as E1.
  (* round two: [tail] is on [i], the last item *)
  pose proof (chain_last _ _ _ Hc2) as Hlast.
  rewrite last_of_snoc in Hlast.
  destruct (h2 !! i) as [[nx vi]|] eqn:Ei; [|done].
  simpl in Hlast. injection Hlast as ->.
  destruct (In_link_round_links h2 p' (Some a) i ln j vi Ei) as (_ & E2).
  destruct (link_shape h2 p' a (ns ++ [(i, x)]) j z vi) as (H1 & H2 & H3);
    try done.
  { by rewrite last_of_snoc. }
  { intros b Hb. assert (b ≠ j) by (by intros ->).
    rewrite Hh2 by done. by apply Hp, Hp'. }
  rewrite last_of_snoc in H1, H3.
  rewrite <- app_assoc in H1, H2. simpl in H1, H2.
  exists j. eexists. split_and!.
  - rewrite E. cbn [loop]. unfold mbind, M_bind, bind.
    rewrite E1. cbn [loop]. unfold mbind, M_bind, bind. rewrite E2.
    reflexivity.
  - unfold repg. simpl. split_and!; try done.
    rewrite Hl, Zplus_mod_idemp_l, !length_app. simpl. f_equal. lia.
  - rewrite E. cbn [loop]. unfold mbind, M_bind, bind. by rewrite E1.
Qed.

Lemma repg_elements s a ns tl d : repg s a ns tl d -> elements s = ns.*2.
Proof.
  intros (Hh & Ht & Hc & Hnd & Hp & Hl).
  unfold elements. rewrite Hh. apply walk_chain; [done|].
  assert (NoDup (a :: ns.*1)) as Hnd'.
  { rewrite app_comm_cons in Hnd. by apply NoDup_app in Hnd as [? _]. }
  assert (a :: ns.*1 ⊆+ (map_to_list (heap s)).*1) as Hsub.
  { apply NoDup_submseteq; [done|]. intros b Hb.
    destruct (chain_alloc _ _ _ Hc b Hb) as [it Hit].
    apply list_elem_of_fmap. exists (b, it). split; [done|].
    by apply elem_of_map_to_list. }
  apply submseteq_length in Hsub.
  rewrite length_fmap, length_map_to_list in Hsub. simpl in Hsub.
  rewrite length_fmap in Hsub. lia.
Qed.

Lemma repg_tail_not_head s a n y ns d :
  repg s a ((n, y) :: ns) (last_of a ((n, y) :: ns)) d ->
  last_of a ((n, y) :: ns) ≠ a.
Proof.
  intros (_ & _ & _ & Hnd & _). rewrite last_of_cons. intros E.
  apply NoDup_cons in Hnd as [Hna _]. apply Hna.
  rewrite fmap_cons. simpl. rewrite app_comm_cons. apply elem_of_app. left.
  rewrite <- E. apply last_of_elem.
Qed.

(** What an [In] interrupted after its first [cas] leaves behind, and how an
    [Out] by another goroutine and the resumed [In] end up. *)
Lemma interrupted_In_then_Out s xs fuel pick x :
  rep s xs ->
  exists l i s1,
    In_link nilT (S fuel) pick x s = Ok (l, i) s1 /\
    tail (qu s1) = tail (qu s) /\
    len (qu s1) = (Z.of_nat (length xs) mod 2 ^ 64)%Z /\
    elements s1 = xs ++ [x] /\
    exists y s2,
      Out nilT (S (S fuel)) s1 = Ok y s2 /\
      (xs ++ [x]) !! 0 = Some y /\
      (xs = [] -> Out nilT 1 s1 = Spin) /\
      elements s2 = drop 1 (xs ++ [x]) /\
      len (qu s2) = ((Z.of_nat (length xs) - 1) mod 2 ^ 64)%Z /\
      exists s3,
        In_finish (l, i) s2 = Ok tt s3 /\ rep s3 (drop 1 (xs ++ [x])).
Proof.
  intros (a & ns & Hr & Hxs)%rep_repg.
  pose proof Hr as (_ & Ht & _).
  destruct (In_link_spec s a ns 0 fuel pick x Hr) as (i & s1 & E1 & Hr1).
  pose proof Hr1 as (_ & Ht1 & _ & _ & _ & Hl1).
  exists (Some (last_of a ns)), (Some i), s1.
  rewrite (repg_elements _ _ _ _ _ Hr1), fmap_app, Hxs. simpl.
  split_and!; [done | congruence | | done |].
  { rewrite Hl1, length_app, <- Hxs, length_fmap. simpl. f_equal. lia. }
  destruct ns as [|[n y] ns'].
  - simpl in Hxs. subst xs. rewrite last_of_nil in *. simpl in *.
    destruct (Out_help_spec s1 a i x [] (0 - 1) fuel Hr1)
      as (s2 & E2 & Hr2 & _ & Hspin).
    destruct (In_finish_spec s2 i [] i (0 - 1) a i Hr2) as (s3 & E3 & Hr3 & _).
    pose proof Hr2 as (_ & _ & _ & _ & _ & Hl2).
    exists x, s2. rewrite (repg_elements _ _ _ _ _ Hr2).
    split_and!; try done.
    exists s3. split; [done|]. apply rep_repg. exists i, [].
    split; [|done]. rewrite last_of_nil.
    replace (0 - 1 + 1)%Z with 0%Z in Hr3 by lia.
    by destruct (decide (i = a)).
  - simpl in Hxs. subst xs.
    assert (last_of a ((n, y) :: ns') ≠ a) as Hne
      by (by eapply repg_tail_not_head).
    destruct (Out_step_spec s1 a n y (ns' ++ [(i, x)])
                (last_of a ((n, y) :: ns')) (0 - 1) (S fuel) Hr1 Hne)
      as (s2 & E2 & Hr2 & _).
    destruct (In_finish_spec s2 n (ns' ++ [(i, x)])
                (last_of a ((n, y) :: ns')) (0 - 1)
                (last_of a ((n, y) :: ns')) i Hr2) as (s3 & E3 & Hr3 & _).
    pose proof Hr2 as (_ & _ & _ & _ & _ & Hl2).
    exists y, s2. rewrite (repg_elements _ _ _ _ _ Hr2), fmap_app. simpl.
    split_and!; try done.
    { rewrite Hl2, length_app, length_fmap. simpl. f_equal. lia. }
    exists s3. split; [done|]. apply rep_repg. exists n, (ns' ++ [(i, x)]).
    rewrite last_of_snoc, fmap_app. split; [|done].
    rewrite decide_True in Hr3 by done.
    by replace (0 - 1 + 1)%Z with 0%Z in Hr3 by lia.
Qed.

(** X9. An [In] is suspended after linking its item, before it moves
    [tail] and counts. An [Out] by another goroutine then still returns
    the oldest element: it moves the lagging [tail] on itself when the
    queue looked empty (which takes a second round of its loop). When the
    suspended [In] resumes, the queue is in order again and holds what is
    left. *)
Theorem Out_helps_interrupted_In s fuel pick x :
  reachable nilT s ->
  exists l i s1,
    In_link nilT (S fuel) pick x s = Ok (l, i) s1 /\
    tail (qu s1) = tail (qu s) /\
    elements s1 = elements s ++ [x] /\
    exists y s2,
      Out nilT (S (S fuel)) s1 = Ok y s2 /\
      (elements s ++ [x]) !! 0 = Some y /\
      (elements s = [] -> Out nilT 1 s1 = Spin) /\
      elements s2 = drop 1 (elements s ++ [x]) /\
      exists s3,
        In_finish (l, i) s2 = Ok tt s3 /\
        rep s3 (drop 1 (elements s ++ [x])).
Proof.
  intros Hr%reachable_rep.
  destruct (interrupted_In_then_Out s _ fuel pick x Hr)
    as (l & i & s1 & E1 & Ht & _ & He1 & y & s2 & E2 & Hy & Hsp & He2 & _ & H3).
  exists l, i, s1. split_and!; try done. by exists y, s2.
Qed.

(** X10. With an [In] suspended in the same way, an [In] by another
    goroutine finds [tail] one item behind, moves it on in its first round
    and links its own item in the second; after the suspended [In] has
    resumed the queue holds both values, the suspended one first. *)
Theorem In_helps_interrupted_In s fuel pick x pick' z :
  reachable nilT s ->
  exists l i s1,
    In_link nilT (S fuel) pick x s = Ok (l, i) s1 /\
    exists s2,
      In nilT (S (S fuel)) pick' z s1 = Ok tt s2 /\
      In nilT 1 pick' z s1 = Spin /\
      elements s2 = elements s ++ [x; z] /\
      exists s3,
        In_finish (l, i) s2 = Ok tt s3 /\
        rep s3 (elements s ++ [x; z]).
Proof.
  intros (a & ns & Hr & Hxs)%reachable_rep%rep_repg.
  destruct (In_link_spec s a ns 0 fuel pick x Hr) as (i & s1 & E1 & Hr1).
  destruct (In_help_spec s1 a ns i x (0 - 1) fuel pick' z Hr1)
    as (j & s2 & E2 & Hr2 & Hspin).
  destruct (In_finish_spec s2 a (ns ++ [(i, x); (j, z)]) j (0 - 1)
              (last_of a ns) i Hr2) as (s3 & E3 & Hr3 & _).
  exists (Some (last_of a ns)), (Some i), s1. split; [done|].
  exists s2. rewrite (repg_elements _ _ _ _ _ Hr2), fmap_app, Hxs. simpl.
  split_and!; try done.
  exists s3. split; [done|]. apply rep_repg.
  exists a, (ns ++ [(i, x); (j, z)]).
  rewrite fmap_app, Hxs. split; [|done].
  replace (ns ++ [(i, x); (j, z)]) with ((ns ++ [(i, x)]) ++ [(j, z)])
    by (by rewrite <- app_assoc).
  rewrite last_of_snoc.
  replace ((ns ++ [(i, x)]) ++ [(j, z)]) with (ns ++ [(i, x); (j, z)])
    by (by rewrite <- app_assoc).
  replace (0 - 1 + 1)%Z with 0%Z in Hr3 by lia.
  destruct (decide (j = last_of a ns)) as [->|_]; [|done].
  (* [j] is a new item, not the one [tail] was on *)
  exfalso. destruct Hr2 as (_ & _ & _ & Hnd & _).
  apply NoDup_cons in Hnd as [Hna Hnd].
  rewrite fmap_app in Hnd, Hna. simpl in Hnd, Hna.
  pose proof (last_of_elem a ns) as Hin.
  apply elem_of_cons in Hin as [Hin|Hin].
  - apply Hna. rewrite <- Hin. set_solver.
  - rewrite <- app_assoc in Hnd. apply NoDup_app in Hnd as (_ & Hd & _).
    apply (Hd _ Hin). set_solver.
Qed.

(** X11. [Len()] is only an estimate while an [In] is under way: with an
    [In] suspended before it counts, the queue holds one element while
    [Len()] still says 0, and after an [Out] has removed that element
    [Len()] reads [2^64 - 1] until the [In] resumes. *)
Theorem Len_wraps_while_In_is_suspended s fuel pick x :
  reachable nilT s -> elements s = [] ->
  exists l i s1 s2 s3,
    In_link nilT (S fuel) pick x s = Ok (l, i) s1 /\
    elements s1 = [x] /\ Len s1 = Ok 0%Z s1 /\
    Out nilT (S (S fuel)) s1 = Ok x s2 /\
    elements s2 = [] /\ Len s2 = Ok (2 ^ 64 - 1)%Z s2 /\
    In_finish (l, i) s2 = Ok tt s3 /\
    elements s3 = [] /\ Len s3 = Ok 0%Z s3.
Proof.
  intros Hr%reachable_rep He. rewrite He in Hr.
  destruct (interrupted_In_then_Out s [] fuel pick x Hr)
    as (l & i & s1 & E1 & _ & Hl1 & He1 & y & s2 & E2 & Hy & _ & He2 & Hl2
        & s3 & E3 & Hr3).
  simpl in *. injection Hy as <-.
  exists l, i, s1, s2, s3. unfold Len.
  rewrite (rep_elements _ _ Hr3).
  destruct Hr3 as (? & ? & _ & _ & _ & _ & _ & _ & Hl3).
  split_and!; try done.
  - by rewrite Hl1.
  - by rewrite Hl2.
  - by rewrite Hl3.
Qed.

(** X12. An [Out] that returns an element writes to no item. It moves
    [head] to the item that held the element, which stays the sentinel
    with the value still in its [v], and puts the item [head] was on into
    the pool with its [next] still pointing at the new sentinel. *)
Theorem Out_recycles_the_sentinel s fuel x rest :
  reachable nilT s -> elements s = x :: rest ->
  exists a b s',
    head (qu s) = Some a /\
    Out nilT (S fuel) s = Ok x s' /\
    head (qu s') = Some b /\ a ≠ b /\
    heap s' = heap s /\
    pool s' = a :: pool s /\
    getV (Some b) s' = Ok x s' /\
    loadItem (Lnext (Some a)) s' = Ok (Some b) s'.
Proof.
  intros (a & ns & Hr & Hxs)%reachable_rep%rep_repg He.
  rewrite He in Hxs. destruct ns as [|[n y] ns]; [done|].
  simpl in Hxs. injection Hxs as -> Hxs.
  pose proof (repg_tail_not_head _ _ _ _ _ _ Hr) as Hne.
  destruct (Out_step_spec s a n x ns _ 0 fuel Hr Hne) as (s' & E & Hr' & Hp' & Hh').
  destruct Hr as (Hh & _ & (Ha & Hn & _) & Hnd & _).
  destruct Hr' as (Hhd' & _).
  exists a, n, s'. split_and!; try done.
  - intros ->. apply NoDup_cons in Hnd as [Hna _]. apply Hna. set_solver.
  - simpl. rewrite Hh'. destruct (heap s !! n) as [it|]; [|done].
    simpl in Hn. by injection Hn as ->.
  - simpl. rewrite Hh'. destruct (heap s !! a) as [it|]; [|done].
    simpl in Ha. by injection Ha as ->.
Qed.

(** Code that allocates nothing. *)

Lemma keeps_ret {A} (a : A) : keeps (T:=T) (ret a).
Proof. intros s b s' E. unfold ret in E. by simplify_eq. Qed.

Lemma keeps_bind {A B} (m : M A) (k : A -> M B) :
  keeps m -> (forall a, keeps (k a)) -> keeps (T:=T) (x ← m; k x).
Proof.
  intros Hm Hk s b s' E. unfold mbind, M_bind, bind in E.
  destruct (m s) as [a s1| |] eqn:E1; [|done..].
  destruct (Hm _ _ _ E1) as [? ?]. destruct (Hk a _ _ _ E) as [? ?].
  split; congruence.
Qed.

Lemma keeps_loop {A} fuel (body : M (option A)) :
  keeps body -> keeps (T:=T) (loop fuel body).
Proof.
  intros Hb. induction fuel as [|fuel IH]; [by intros s a s' E|].
  simpl. apply keeps_bind; [done|]. intros [a|]; [apply keeps_ret | done].
Qed.

Lemma keeps_loadItem p : keeps (T:=T) (loadItem p).
Proof.
  intros s a s' E. unfold loadItem in E.
  repeat case_match; by simplify_eq.
Qed.

Lemma dom_insert_present h (a : nat) (it it' : @item T) :
  h !! a = Some it -> dom (<[a := it']> h) = dom h.
Proof.
  intros Ha. rewrite dom_insert_L.
  assert (a ∈ dom h) by (apply elem_of_dom; eauto). set_solver.
Qed.

Lemma keeps_storeItem p x : keeps (T:=T) (storeItem p x).
Proof.
  intros s a s' E. unfold storeItem in E.
  repeat case_match; simplify_eq; simpl; try done.
  split; [|done]. by eapply dom_insert_present.
Qed.

Lemma keeps_setV i x : keeps (T:=T) (setV i x).
Proof.
  intros s a s' E. unfold setV in E.
  repeat case_match; simplify_eq; simpl.
  split; [|done]. by eapply dom_insert_present.
Qed.

Lemma keeps_casItem p old new : keeps (T:=T) (casItem p old new).
Proof.
  unfold casItem. apply keeps_bind; [apply keeps_loadItem|].
  intros cur. case_decide; [|apply keeps_ret].
  apply keeps_bind; [apply keeps_storeItem | intros; apply keeps_ret].
Qed.

Lemma keeps_addLen d : keeps (T:=T) (addLen d).
Proof. intros s a s' E. unfold addLen in E. by simplify_eq. Qed.

Lemma keeps_In_round i : keeps (T:=T) (In_round i).
Proof.
  unfold In_round.
  repeat first
    [ apply keeps_bind; [first [apply keeps_loadItem | apply keeps_casItem
                               | apply keeps_addLen]|]; intros ?
    | apply keeps_ret
    | case_decide
    | match goal with |- keeps (if ?b then _ else _) => destruct b end ].
Qed.

(** [In] takes its item from the pool or allocates exactly one. *)
Lemma In_items s fuel pick x s' :
  (forall b, b ∈ pool s -> is_Some (heap s !! b)) ->
  In nilT fuel pick x s = Ok tt s' ->
  size (heap s') + length (pool s) = size (heap s) + length (pool s') + 1.
Proof.
  intros Hal E. unfold In, mbind, M_bind, bind in E.
  destruct (poolGet nilT pick s) as [i s1| |] eqn:Eg; [|done..].
  assert (size (heap s1) + length (pool s)
          = size (heap s) + length (pool s1) + 1) as Hg.
  { unfold poolGet, poolNew in Eg.
    assert (forall s1', Ok (Some (fresh (dom (heap s))))
               (set_heap (<[fresh (dom (heap s)) := Item None nilT]> (heap s)) s)
               = Ok i s1' ->
             size (heap s1') + length (pool s)
             = size (heap s) + length (pool s1') + 1) as Hnew.
    { intros s1' E'. simplify_eq. simpl.
      rewrite map_size_insert_None; [lia|].
      apply not_elem_of_dom, is_fresh. }
    destruct pick as [k|]; [|by apply Hnew].
    destruct (pool s !! k) as [c|] eqn:Ek; [|by apply Hnew].
    simplify_eq. simpl. rewrite length_delete by eauto.
    apply lookup_lt_Some in Ek. lia. }
  destruct (storeItem (Lnext i) None s1) as [[] s2| |] eqn:E2; [|done..].
  destruct (setV i x s2) as [[] s3| |] eqn:E3; [|done..].
  destruct (keeps_storeItem _ _ _ _ _ E2) as [Hd2 Hp2].
  destruct (keeps_setV _ _ _ _ _ E3) as [Hd3 Hp3].
  destruct (keeps_loop fuel _ (keeps_In_round i) _ _ _ E) as [Hd4 Hp4].
  rewrite <- !size_dom in *. rewrite Hd4, Hd3, Hd2, Hp4, Hp3, Hp2. done.
Qed.

Lemma rep_poolDrop s xs k :
  rep s xs -> rep (set_pool (delete k (pool s)) s) xs.
Proof.
  intros (a & ns & Hh & Ht & Hc & Hxs & Hnd & Hp & Hl).
  exists a, ns. simpl. split_and!; try done.
  - eapply sublist_NoDup; [exact Hnd|].
    apply sublist_skip, sublist_app; [done | apply sublist_delete].
  - intros b Hb. apply Hp.
    eapply elem_of_sublist; [exact Hb | apply sublist_delete].
Qed.

(** An operation of one goroutine, counted in items. *)
Lemma run_op_items s0 xs fuel o r s1 :
  rep s0 xs ->
  run_op nilT (S fuel) o s0 = Ok r s1 ->
  exists xs1, rep s1 xs1 /\
    size (heap s1) + length xs + length (pool s0)
    = size (heap s0) + length xs1 + length (pool s1).
Proof.
  intros Hr E1.
  destruct o as [pick x|]; simpl in E1; unfold mbind, M_bind, bind in E1.
  - destruct (In_spec s0 xs fuel pick x Hr) as (s1' & Ein & Hr1 & _).
    rewrite Ein in E1. unfold mret, M_ret, ret in E1. simplify_eq.
    exists (xs ++ [x]). split; [done|].
    assert (forall b, b ∈ pool s0 -> is_Some (heap s0 !! b)) as Hal.
    { by destruct Hr as (? & ? & _ & _ & _ & _ & _ & ? & _). }
    pose proof (In_items _ _ _ _ _ Hal Ein) as Hi.
    rewrite length_app. simpl. lia.
  - destruct xs as [|y ys].
    + rewrite (Out_nil_spec _ fuel Hr) in E1.
      unfold mret, M_ret, ret in E1. simplify_eq. eauto.
    + apply rep_repg in Hr as (a & ns & Hg & Hxs).
      destruct ns as [|[n y'] ns]; [done|].
      simpl in Hxs. injection Hxs as -> Hxs.
      pose proof (repg_tail_not_head _ _ _ _ _ _ Hg) as Hne.
      destruct (Out_step_spec s0 a n y ns _ 0 fuel Hg Hne)
        as (s1' & Eo & Hg' & Hp' & Hh').
      rewrite Eo in E1. unfold mret, M_ret, ret in E1. simplify_eq.
      exists (ns.*2). split.
      * apply rep_repg. exists n, ns. split; [|done].
        destruct Hg' as (? & Ht' & ?). rewrite last_of_cons in Ht'.
        unfold repg. tauto.
      * rewrite Hh', Hp'. simpl. rewrite ?length_fmap. lia.
Qed.

(** X13. No item is leaked, with the garbage collector removing pooled
    items at any time: after any sequence of [In], [Out] and removals on a
    new queue, the number of items allocated so far is the number
    allocated before [New], plus the sentinel, plus one per element, plus
    what the pool has grown by, plus the items the collector has removed
    from the pool. [In] allocates only when it gets no item from the pool,
    and [Out] allocates nothing. *)
Theorem no_item_is_leaked h p fuel gs rs s :
  wf_pool h p ->
  run_gc nilT (S fuel) gs (NewQueue nilT h p) = Ok rs s ->
  size (heap s) + length p
  = size h + 1 + length (elements s) + length (pool s)
    + dropped nilT (S fuel) gs (NewQueue nilT h p).
Proof.
  intros Hwf Hrun.
  assert (forall gs s0 xs rs s,
            rep s0 xs ->
            run_gc nilT (S fuel) gs s0 = Ok rs s ->
            exists xs', rep s xs' /\
              size (heap s) + length xs + length (pool s0)
              = size (heap s0) + length xs' + length (pool s)
                + dropped nilT (S fuel) gs s0) as Hgen.
  { clear. induction gs as [|g gs IH]; intros s0 xs rs s Hr E.
    - simpl in E. unfold mret, M_ret, ret in E. simplify_eq.
      exists xs. split; [done|]. simpl. lia.
    - simpl in E. unfold mbind, M_bind, bind in E.
      destruct (run_gop nilT (S fuel) g s0) as [r s1| |] eqn:E1; [|done..].
      destruct (run_gc nilT (S fuel) gs s1) as [rs1 s2| |] eqn:E2; [|done..].
      unfold mret, M_ret, ret in E. simplify_eq.
      cbn [dropped]. rewrite E1.
      destruct g as [o|k].
      + destruct (run_op_items s0 xs fuel o r s1 Hr E1) as (xs1 & Hr1 & Hs1).
        destruct (IH s1 xs1 rs1 s Hr1 E2) as (xs' & Hr' & Hs').
        exists xs'. split; [done|]. lia.
      + simpl in E1. unfold poolDrop, mbind, M_bind, bind in E1.
        unfold mret, M_ret, ret in E1. simplify_eq.
        destruct (IH _ xs rs1 s (rep_poolDrop s0 xs k Hr) E2)
          as (xs' & Hr' & Hs').
        exists xs'. split; [done|]. simpl in *.
        pose proof (sublist_length _ _ (sublist_delete (pool s0) k)).
        lia. }
  destruct (Hgen gs _ [] rs s (NewQueue_rep h p Hwf) Hrun)
    as (xs' & Hr' & Hs').
  rewrite (rep_elements _ _ Hr'). simpl in Hs'.
  rewrite map_size_insert_None in Hs'; [lia|].
  apply not_elem_of_dom, is_fresh.
Qed.

(** X14. The zero value of the queue is not usable: on a
    [{{.Name}}Queue] not made by [New], [In] and [Out] dereference the nil
    [tail] or [head] and panic in their first round; [Len] returns 0. *)
Theorem zero_value_queue_panics h p fuel pick x :
  In nilT (S fuel) pick x (State h p zero_Queue) = Panic /\
  Out nilT (S fuel) (State h p zero_Queue) = Panic /\
  Len (State h p zero_Queue) = Ok 0%Z (State h p zero_Queue).
Proof.
  split_and!; [|reflexivity..].
  unfold In, mbind, M_bind, bind.
  assert (exists i s1, poolGet nilT pick (State h p zero_Queue) = Ok i s1 /\
                       qu s1 = zero_Queue) as (i & s1 & -> & Hq1).
  { unfold poolGet, poolNew. simpl. repeat case_match; eauto. }
  destruct (storeItem (Lnext i) None s1) as [[] s2| |] eqn:E2;
    [|done|unfold storeItem in E2; repeat case_match; done].
  assert (qu s2 = zero_Queue) as Hq2.
  { unfold storeItem in E2. repeat case_match; by simplify_eq. }
  destruct (setV i x s2) as [[] s3| |] eqn:E3;
    [|done|unfold setV in E3; repeat case_match; done].
  assert (qu s3 = zero_Queue) as Hq3.
  { unfold setV in E3. repeat case_match; by simplify_eq. }
  cbn [loop]. unfold In_round, mbind, M_bind, bind. simpl. by rewrite Hq3.
Qed.

(** A round of [Out] is [Out_read] followed by [Out_commit]. *)
Lemma Out_round_split s :
  Out_round nilT s = (p ← Out_read nilT; Out_commit p) s.
Proof.
  unfold Out_round, Out_read, Out_commit, mbind, M_bind, bind, ret.
  split_outcomes; simpl in *; congruence.
Qed.

Lemma Out_read_takes h p a tl ln n va nn y :
  tl ≠ a ->
  h !! a = Some (Item (Some n) va) -> h !! n = Some (Item nn y) ->
  Out_read nilT (State h p (MkQueue (Some a) (Some tl) ln)) =
  Ok (OutCas (Some a) (Some n) y) (State h p (MkQueue (Some a) (Some tl) ln)).
Proof.
  intros Hne Ha Hn.
  unfold Out_read, casItem, mbind, M_bind, bind. simpl.
  repeat (first [rewrite Ha | rewrite Hn | rewrite decide_True by done
                | rewrite decide_False by congruence]; simpl).
  done.
Qed.

(** [In] with the item it gets from the pool known. *)
Lemma In_reuse_spec s a ns d fuel b p z :
  repg s a ns (last_of a ns) d -> pool s = b :: p ->
  exists s',
    In nilT (S fuel) (Some 0) z s = Ok tt s' /\
    repg s' a (ns ++ [(b, z)]) b d /\ pool s' = p.
Proof.
  intros (Hh & Ht & Hc & Hnd & Hp & Hl) Hpool.
  destruct s as [h p0 [hd tl ln]]. simpl in *. subst hd tl p0.
  destruct (Hp b) as [[nb vb] Hb]; [set_solver|].
  pose proof (chain_last _ _ _ Hc) as Hlast.
  destruct (h !! last_of a ns) as [[nx vl]|] eqn:El; [|done].
  simpl in Hlast. injection Hlast as ->.
  assert (b ∉ a :: ns.*1) as HbC.
  { rewrite app_comm_cons in Hnd. apply NoDup_app in Hnd as (_ & Hd & _).
    intros Hin. apply (Hd _ Hin). set_solver. }
  assert (b ∉ p) as Hbp.
  { rewrite app_comm_cons in Hnd. apply NoDup_app in Hnd as (_ & _ & Hd).
    by apply NoDup_cons in Hd as [? _]. }
  assert (NoDup (a :: ns.*1 ++ p)) as Hnd'.
  { rewrite app_comm_cons in Hnd. rewrite app_comm_cons.
    apply NoDup_app in Hnd as (H1 & H2 & H3). apply NoDup_app.
    split_and!; [done | |].
    - intros c Hc1 Hc2. apply (H2 _ Hc1). set_solver.
    - by apply NoDup_cons in H3 as [_ ?]. }
  assert (last_of a ns ≠ b) as Hlb.
  { intros <-. apply HbC, last_of_elem. }
  set (h2 := <[b := Item None z]> h).
  assert (h2 !! last_of a ns = Some (Item None vl)) as El2.
  { unfold h2. by rewrite lookup_insert_ne. }
  destruct (In_link_round_links h2 p (Some a) (last_of a ns) ln b vl El2)
    as (_ & E2).
  destruct (link_shape h2 p a ns b z vl) as (H1 & H2 & H3); try done.
  { eapply chain_ext; [|exact Hc]. intros c Hc1. unfold h2.
    rewrite lookup_insert_ne; [done|]. by intros <-. }
  { unfold h2. by rewrite lookup_insert_eq. }
  { intros c Hc1. unfold h2. apply lookup_insert_is_Some'. right.
    apply Hp. set_solver. }
  eexists. split_and!.
  - unfold In, poolGet, storeItem, setV, set_heap, set_pool,
      mbind, M_bind, bind.
    simpl. rewrite Hb. simpl. rewrite lookup_insert_eq. simpl.
    rewrite insert_insert_eq. fold h2.
    unfold mbind, M_bind, bind. rewrite E2. reflexivity.
  - unfold repg. simpl. split_and!; try done.
    rewrite Hl, Zplus_mod_idemp_l, length_app. simpl. f_equal. lia.
  - done.
Qed.

(** Taking out all the elements: [head] and [tail] end on the last item,
    all the others are in the pool. *)
Lemma Out_n_drain s a ns d fuel :
  repg s a ns (last_of a ns) d ->
  exists s',
    Out_n nilT (S fuel) (length ns) s = Ok ns.*2 s' /\
    repg s' (last_of a ns) [] (last_of a ns) d /\
    (forall b, b ∈ a :: ns.*1 -> b ≠ last_of a ns -> b ∈ pool s') /\
    (forall b, b ∈ pool s -> b ∈ pool s').
Proof.
  revert s a. induction ns as [|[n y] ns IH]; intros s a Hr.
  - exists s. rewrite last_of_nil in *. split_and!; try done.
    intros b Hb Hne. set_solver.
  - pose proof (repg_tail_not_head _ _ _ _ _ _ Hr) as Hne.
    destruct (Out_step_spec s a n y ns _ d fuel Hr Hne)
      as (s1 & E1 & Hr1 & Hp1 & _).
    rewrite last_of_cons in *.
    destruct (IH s1 n Hr1) as (s' & E' & Hr' & Hin' & Hp').
    exists s'. split_and!; try done.
    + simpl. unfold mbind, M_bind, bind. rewrite E1.
      unfold mbind, M_bind, bind in E'. by rewrite E'.
    + intros b Hb Hbl. apply elem_of_cons in Hb as [->|Hb].
      * apply Hp'. rewrite Hp1. set_solver.
      * by apply Hin'.
    + intros b Hb. apply Hp'. rewrite Hp1. set_solver.
Qed.

(** X16. [Out] is not safe against the reuse of items by the pool. An
    [Out] is suspended after reading [first], [firstnext] and
    [firstnext.v], before its [cas] on [head]. Another goroutine takes that
    element out, gets the item [first] back from the pool for an [In] and
    takes out everything: [head] is on [first] again. The suspended [Out]
    resumes, its [cas] succeeds, and it returns the value a second time;
    [head] is then on an item in the pool, the item [tail] is on goes into
    the pool as well, and [Len()] reads [2^64 - 1]. The next [In] can get
    the item [tail] is on from the pool and links it behind itself. *)
Theorem suspended_Out_returns_a_value_twice s fuel x rest z w :
  reachable nilT s -> elements s = x :: rest ->
  exists a n s1 s2 s3 s4 s5,
    Out_read nilT s = Ok (OutCas (Some a) (Some n) x) s /\
    Out nilT (S fuel) s = Ok x s1 /\
    pool s1 !! 0 = Some a /\
    In nilT (S fuel) (Some 0) z s1 = Ok tt s2 /\
    Out_n nilT (S fuel) (S (length rest)) s2 = Ok (rest ++ [z]) s3 /\
    rep s3 [] /\ head (qu s3) = Some a /\
    Out_commit (OutCas (Some a) (Some n) x) s3 = Ok (Some x) s4 /\
    head (qu s4) = Some n /\ tail (qu s4) = Some a /\
    n ∈ pool s4 /\ pool s4 !! 0 = Some a /\
    Len s4 = Ok (2 ^ 64 - 1)%Z s4 /\
    In nilT (S fuel) (Some 0) w s4 = Ok tt s5 /\
    tail (qu s5) = Some a /\
    loadItem (Lnext (Some a)) s5 = Ok (Some a) s5.
Proof.
  intros (a & ns0 & Hr & Hxs)%reachable_rep%rep_repg He.
  rewrite He in Hxs. destruct ns0 as [|[n y] ns]; [done|].
  simpl in Hxs. injection Hxs as -> Hxs.
  assert (ns.*2 = rest) as Hrest by exact Hxs. clear Hxs.
  pose proof (repg_tail_not_head _ _ _ _ _ _ Hr) as Hne.
  (* the suspended [Out] has read [a], [n] and [x] *)
  assert (Out_read nilT s = Ok (OutCas (Some a) (Some n) x) s) as E0.
  { destruct Hr as (Hh & Ht & (Ha & Hn & _) & _).
    destruct s as [h p [hd tl ln]]. simpl in *. subst hd tl.
    destruct (h !! a) as [[nx va]|] eqn:Ea; [|done].
    simpl in Ha. injection Ha as ->.
    destruct (h !! n) as [[nn vn]|] eqn:En; [|done].
    simpl in Hn. injection Hn as ->.
    by apply (Out_read_takes h p a _ ln n va nn x). }
  (* the other goroutine: [Out], [In] with [a] from the pool, all out *)
  destruct (Out_step_spec s a n x ns _ 0 fuel Hr Hne)
    as (s1 & E1 & Hr1 & Hp1 & _).
  rewrite last_of_cons in Hr1.
  destruct (In_reuse_spec s1 n ns 0 fuel a (pool s) z Hr1 Hp1)
    as (s2 & E2 & Hr2 & Hp2).
  assert (last_of n (ns ++ [(a, z)]) = a) as Hla by apply last_of_snoc.
  rewrite <- Hla in Hr2 at 2.
  destruct (Out_n_drain s2 n (ns ++ [(a, z)]) 0 fuel Hr2)
    as (s3 & E3 & Hr3 & Hin3 & _).
  rewrite Hla in Hr3, Hin3.
  rewrite length_app, fmap_app, Hrest in E3. simpl in E3.
  rewrite <- (length_fmap snd), Hrest in E3.
  replace (length rest + 1) with (S (length rest)) in E3 by lia.
  assert (n ∈ pool s3) as Hn3.
  { apply Hin3; [set_solver|].
    destruct Hr2 as (_ & _ & _ & Hnd & _).
    apply NoDup_cons in Hnd as [Hna _]. intros ->. apply Hna.
    rewrite fmap_app. set_solver. }
  assert (rep s3 []) as Hrep3.
  { apply rep_repg. exists a, []. by rewrite last_of_nil. }
  (* the suspended [Out] resumes *)
  pose proof Hr3 as (Hh3 & Ht3 & Hc3 & Hnd3 & Hal3 & Hl3).
  destruct s3 as [h3 p3 [hd3 tl3 ln3]]. simpl in *. subst hd3 tl3 ln3.
  destruct (h3 !! a) as [[nxa va]|] eqn:Ea3; [|done].
  simpl in Hc3. injection Hc3 as ->.
  set (h5 := <[a := Item None w]> h3).
  assert (h5 !! a = Some (Item None w)) as Ea5.
  { unfold h5. by rewrite lookup_insert_eq. }
  destruct (In_link_round_links h5 p3 (Some n) a (2 ^ 64 - 1)%Z a w Ea5)
    as (_ & E5).
  exists a, n, s1, s2, (State h3 p3 (MkQueue (Some a) (Some a) 0)).
  eexists _, _. split_and!; try done.
  - by rewrite Hp1.
  - unfold Out_commit, casItem, mbind, M_bind, bind. simpl.
    rewrite decide_True by done. simpl. reflexivity.
  - done.
  - done.
  - simpl. set_solver.
  - done.
  - done.
  - unfold In, poolGet, storeItem, setV, addLen, poolPut, set_heap,
      set_pool, set_qu, mbind, M_bind, bind.
    simpl. rewrite Ea3. simpl. rewrite lookup_insert_eq. simpl.
    rewrite insert_insert_eq. fold h5.
    unfold mbind, M_bind, bind.
    change ((0 + uint64_max) mod 2 ^ 64)%Z with (2 ^ 64 - 1)%Z.
    rewrite E5. reflexivity.
  - done.
  - simpl. by rewrite lookup_insert_eq.
Qed.

End QueueSpec.

(** *** The claims at sample queues *)

Lemma reachable_sample_empty : reachable None sample_empty.
Proof.
  exists ∅, [], 0, [OpIn None (Some 1); OpOut], [None; Some (Some 1)].
  split; [apply wf_pool_nil | vm_compute; reflexivity].
Qed.

Lemma reachable_sample_nil_first : reachable None sample_nil_first.
Proof.
  exists ∅, [], 0,
    [OpIn None (Some 1); OpIn None None; OpOut; OpIn (Some 0) (Some 3)],
    [None; None; Some (Some 1); None].
  split; [apply wf_pool_nil | vm_compute; reflexivity].
Qed.

Lemma fifo_single_goroutine_witness :
  wf_pool (T:=option nat) ∅ [] /\
  exists s',
    (In_all None 1 [(None, Some 1); (None, None); (Some 0, Some 3)];;
     outs ← Out_n None 1 3;
     e ← Out None 1;
     mret (outs, e)) (NewQueue None ∅ [])
    = Ok ([Some 1; None; Some 3], None) s'.
Proof.
  split; [apply wf_pool_nil|].
  apply (fifo_single_goroutine None ∅ [] 0
           [(None, Some 1); (None, None); (Some 0, Some 3)]).
  apply wf_pool_nil.
Defined.


Lemma len_counts_elements_witness :
  reachable None sample_nil_first /\
  (Z.of_nat (length (elements sample_nil_first)) < 2 ^ 64)%Z /\
  Len sample_nil_first = Ok 2%Z sample_nil_first.
Proof.
  split; [apply reachable_sample_nil_first|].
  split; [vm_compute; reflexivity|].
  destruct (len_counts_elements None sample_nil_first 0
              reachable_sample_nil_first) as (_ & H & _).
  apply H. vm_compute. reflexivity.
Defined.


Lemma nil_value_is_dequeued_as_nil_witness :
  (reachable None sample_nil_first /\
   elements sample_nil_first = [None; Some 3] /\
   exists s', Out None 1 sample_nil_first = Ok None s' /\
    elements s' = [Some 3] /\
    len (qu s') = ((len (qu sample_nil_first) - 1) mod 2 ^ 64)%Z /\
    head (qu s') ≠ head (qu sample_nil_first)) /\
  (reachable None sample_empty /\
   elements sample_empty = [] /\
   exists s1 s2,
     Out None 1 sample_empty = Ok None sample_empty /\
     In None 1 (Some 0) None sample_empty = Ok tt s1 /\
     Out None 1 s1 = Ok None s2 /\
     elements s1 = [None] /\ elements s2 = [] /\
     len (qu s1) = ((len (qu sample_empty) + 1) mod 2 ^ 64)%Z /\
     len (qu s2) = len (qu sample_empty) /\
     head (qu s1) = head (qu sample_empty) /\
     head (qu s2) = tail (qu s1) /\
     head (qu s2) ≠ head (qu sample_empty)).
Proof.
  split.
  - split; [apply reachable_sample_nil_first|].
    split; [vm_compute; reflexivity|].
    destruct (nil_value_is_dequeued_as_nil None sample_nil_first 0
                reachable_sample_nil_first) as [H _].
    apply H. vm_compute. reflexivity.
  - split; [apply reachable_sample_empty|].
    split; [vm_compute; reflexivity|].
    destruct (nil_value_is_dequeued_as_nil None sample_empty 0
                reachable_sample_empty) as [_ H].
    apply H. vm_compute. reflexivity.
Defined.

(** *** The further properties at sample queues *)

Lemma Out_helps_interrupted_In_witness :
  reachable None sample_empty /\
  exists l i s1,
    In_link None 1 (Some 0) (Some 9) sample_empty = Ok (l, i) s1 /\
    tail (qu s1) = tail (qu sample_empty) /\
    elements s1 = elements sample_empty ++ [Some 9] /\
    exists y s2,
      Out None 2 s1 = Ok y s2 /\
      (elements sample_empty ++ [Some 9]) !! 0 = Some y /\
      (elements sample_empty = [] -> Out None 1 s1 = Spin) /\
      elements s2 = drop 1 (elements sample_empty ++ [Some 9]) /\
      exists s3,
        In_finish (l, i) s2 = Ok tt s3 /\
        rep s3 (drop 1 (elements sample_empty ++ [Some 9])).
Proof.
  split; [apply reachable_sample_empty|].
  apply (Out_helps_interrupted_In None sample_empty 0 (Some 0) (Some 9)).
  apply reachable_sample_empty.
Defined.

Lemma In_helps_interrupted_In_witness :
  reachable None sample_nil_first /\
  exists l i s1,
    In_link None 1 None (Some 9) sample_nil_first = Ok (l, i) s1 /\
    exists s2,
      In None 2 None (Some 8) s1 = Ok tt s2 /\
      In None 1 None (Some 8) s1 = Spin /\
      elements s2 = elements sample_nil_first ++ [Some 9; Some 8] /\
      exists s3,
        In_finish (l, i) s2 = Ok tt s3 /\
        rep s3 (elements sample_nil_first ++ [Some 9; Some 8]).
Proof.
  split; [apply reachable_sample_nil_first|].
  apply (In_helps_interrupted_In None sample_nil_first 0 None (Some 9) None (Some 8)).
  apply reachable_sample_nil_first.
Defined.

Lemma Len_wraps_while_In_is_suspended_witness :
  reachable None sample_empty /\ elements sample_empty = [] /\
  exists l i s1 s2 s3,
    In_link None 1 None (Some 9) sample_empty = Ok (l, i) s1 /\
    elements s1 = [Some 9] /\ Len s1 = Ok 0%Z s1 /\
    Out None 2 s1 = Ok (Some 9) s2 /\
    elements s2 = [] /\ Len s2 = Ok 18446744073709551615%Z s2 /\
    In_finish (l, i) s2 = Ok tt s3 /\
    elements s3 = [] /\ Len s3 = Ok 0%Z s3.
Proof.
  split; [apply reachable_sample_empty|].
  split; [vm_compute; reflexivity|].
  apply (Len_wraps_while_In_is_suspended None sample_empty 0 None (Some 9)).
  - apply reachable_sample_empty.
  - vm_compute. reflexivity.
Defined.

Lemma Out_recycles_the_sentinel_witness :
  reachable None sample_nil_first /\
  elements sample_nil_first = [None; Some 3] /\
  exists a b s',
    head (qu sample_nil_first) = Some a /\
    Out None 1 sample_nil_first = Ok None s' /\
    head (qu s') = Some b /\ a ≠ b /\
    heap s' = heap sample_nil_first /\
    pool s' = a :: pool sample_nil_first /\
    getV (Some b) s' = Ok None s' /\
    loadItem (Lnext (Some a)) s' = Ok (Some b) s'.
Proof.
  split; [apply reachable_sample_nil_first|].
  split; [vm_compute; reflexivity|].
  apply (Out_recycles_the_sentinel None sample_nil_first 0 None [Some 3]).
  - apply reachable_sample_nil_first.
  - vm_compute. reflexivity.
Defined.

Lemma no_item_is_leaked_witness :
  wf_pool (T:=option nat) ∅ [] /\
  exists s,
    run_gc None 1
      [GOp (OpIn None (Some 1)); GOp OpOut; GDrop 0;
       GOp (OpIn (Some 0) (Some 2)); GOp OpOut]
      (NewQueue None ∅ [])
    = Ok [None; Some (Some 1); None; None; Some (Some 2)] s /\
    size (heap s) = 3 /\ length (elements s) = 0 /\ length (pool s) = 1 /\
    dropped None 1
      [GOp (OpIn None (Some 1)); GOp OpOut; GDrop 0;
       GOp (OpIn (Some 0) (Some 2)); GOp OpOut]
      (NewQueue None ∅ []) = 1 /\
    size (heap s) + length (@nil nat)
    = size (∅ : gmap nat (@item (option nat))) + 1
      + length (elements s) + length (pool s)
      + dropped None 1
          [GOp (OpIn None (Some 1)); GOp OpOut; GDrop 0;
           GOp (OpIn (Some 0) (Some 2)); GOp OpOut]
          (NewQueue None ∅ []).
Proof.
  split; [apply wf_pool_nil|]. eexists.
  split; [vm_compute; reflexivity|].
  split; [vm_compute; reflexivity|]. split; [vm_compute; reflexivity|].
  split; [vm_compute; reflexivity|]. split; [vm_compute; reflexivity|].
  eapply (no_item_is_leaked None ∅ [] 0
            [GOp (OpIn None (Some 1)); GOp OpOut; GDrop 0;
             GOp (OpIn (Some 0) (Some 2)); GOp OpOut]).
  - apply wf_pool_nil.
  - vm_compute. reflexivity.
Defined.

Lemma suspended_Out_returns_a_value_twice_witness :
  reachable None sample_nil_first /\
  elements sample_nil_first = [None; Some 3] /\
  exists a n s1 s2 s3 s4 s5,
    Out_read None sample_nil_first
    = Ok (OutCas (Some a) (Some n) None) sample_nil_first /\
    Out None 1 sample_nil_first = Ok None s1 /\
    pool s1 !! 0 = Some a /\
    In None 1 (Some 0) (Some 7) s1 = Ok tt s2 /\
    Out_n None 1 2 s2 = Ok [Some 3; Some 7] s3 /\
    rep s3 [] /\ head (qu s3) = Some a /\
    Out_commit (OutCas (Some a) (Some n) None) s3 = Ok (Some None) s4 /\
    head (qu s4) = Some n /\ tail (qu s4) = Some a /\
    n ∈ pool s4 /\ pool s4 !! 0 = Some a /\
    Len s4 = Ok 18446744073709551615%Z s4 /\
    In None 1 (Some 0) (Some 8) s4 = Ok tt s5 /\
    tail (qu s5) = Some a /\
    loadItem (Lnext (Some a)) s5 = Ok (Some a) s5.
Proof.
  split; [apply reachable_sample_nil_first|].
  split; [vm_compute; reflexivity|].
  apply (suspended_Out_returns_a_value_twice None sample_nil_first 0
           None [Some 3] (Some 7) (Some 8)).
  - apply reachable_sample_nil_first.
  - vm_compute. reflexivity.
Defined.

(** C7. [Len()] is not the number of elements in every state in which no
    operation is under way. In the run [two_goroutines] an [Out] is
    suspended before its [cas] on [head] while another goroutine takes the
    element out and, with an [In] and an [Out], brings [head] back onto
    the same item; the resumed [Out] returns the value 1 a second time and
    subtracts one from [len] once more. All operations have returned: the
    two values put in have been taken out, one item is linked behind
    [head], and [Len()] says [2^64 - 1]. One more [Out] returns 2 a second
    time; then [head] and [tail] are on one item whose [next] is nil, and
    [Len()] says [2^64 - 2]. *)
Theorem Len_is_off_after_interleaved_Out :
  exists s s',
    two_goroutines (NewQueue None ∅ [])
    = Ok (Some 1, Some 2, Some (Some 1), 18446744073709551615%Z) s /\
    elements s = [Some 2] /\ size (heap s) = 2 /\
    Len s = Ok (2 ^ 64 - 1)%Z s /\
    Out_then_Len s = Ok (Some 2, 18446744073709551614%Z) s' /\
    elements s' = [] /\ head_is_tail_and_last s' /\
    Len s' = Ok (2 ^ 64 - 2)%Z s'.
Proof.
  eexists _, _. split; [vm_compute; reflexivity|].
  split; [vm_compute; reflexivity|]. split; [vm_compute; reflexivity|].
  split; [vm_compute; reflexivity|]. split; [vm_compute; reflexivity|].
  split; [vm_compute; reflexivity|].
  split; [split; vm_compute; reflexivity | vm_compute; reflexivity].
Qed.

End QueueSpec.


(** * Proofs: the channel *)

Module ChanSpec.
Import Chan.

Section ChanSpec.

Context {T : Type} (nilT : T) (growslice : nat -> nat -> nat).

#[local] Abbreviation append := (append nilT growslice).
#[local] Abbreviation make := (make nilT).
#[local] Abbreviation step := (step nilT growslice).
#[local] Abbreviation exec := (exec nilT growslice).
#[local] Abbreviation state := (@state T).
#[local] Abbreviation slice := (@slice T).

Implicit Types (q : slice) (s : state) (l : list (@action T)).
Implicit Types (evs : list (@event T)).

Arguments Chan.append : simpl never.
Arguments Chan.make : simpl never.
Arguments Chan.elems : simpl never.
Arguments Chan.cap : simpl never.
Arguments Chan.index0 : simpl never.
Arguments Chan.mu : simpl never.

(** *** Slices *)

Lemma wf_make c : wf_slice (make c).
Proof. unfold wf_slice. simpl. lia. Qed.

Lemma elems_make c : elems (make c) = [].
Proof. reflexivity. Qed.

Lemma cap_make c : cap (make c) = c.
Proof. unfold cap. simpl. rewrite length_replicate. lia. Qed.

Lemma length_elems q : wf_slice q -> length (elems q) = len q.
Proof.
  unfold wf_slice, elems. intros H.
  rewrite length_take, length_drop. lia.
Qed.

Lemma len_le_cap q : wf_slice q -> len q <= cap q.
Proof. unfold wf_slice, cap. lia. Qed.

Lemma len_append q e : len (append q e) = S (len q).
Proof. unfold Chan.append. by case_decide. Qed.

Lemma elems_append q e : wf_slice q -> elems (append q e) = elems q ++ [e].
Proof.
  intros Hwf. unfold Chan.append. case_decide as Hlt.
  - unfold cap in Hlt. unfold elems. simpl.
    rewrite drop_insert_ge by lia.
    replace (off q + len q - off q) with (len q) by lia.
    erewrite take_S_r.
    + by rewrite take_insert_ge by lia.
    + apply list_lookup_insert_eq. rewrite length_drop. lia.
  - pose proof (length_elems q Hwf) as Hlen.
    remember (elems q) as xs eqn:Exs. unfold elems. simpl. rewrite drop_0.
    rewrite take_app, Hlen, take_ge by lia.
    by replace (S (len q) - len q) with 1 by lia.
Qed.

Lemma wf_append q e : wf_slice q -> wf_slice (append q e).
Proof.
  intros Hwf. unfold Chan.append. case_decide as Hlt; unfold wf_slice; simpl.
  - unfold cap in Hlt. rewrite length_insert. lia.
  - rewrite length_app, (length_elems q Hwf). simpl. lia.
Qed.

Lemma index0_elems q : wf_slice q -> index0 q = head (elems q).
Proof.
  unfold wf_slice, index0, elems. intros Hwf. case_decide as Hlt.
  - rewrite head_lookup, lookup_take_lt, lookup_drop by lia.
    by rewrite Nat.add_0_r.
  - replace (len q) with 0 by lia. done.
Qed.

Lemma elems_pop q x :
  wf_slice q -> 0 < len q -> elems (reslice1 (set0 q x)) = drop 1 (elems q).
Proof.
  unfold wf_slice, elems. simpl. intros Hwf Hlt.
  rewrite drop_insert_lt by lia.
  destruct (len q) as [|n] eqn:E; [lia|]. simpl. rewrite Nat.sub_0_r.
  destruct (drop (off q) (arr q)) as [|y l] eqn:Ed.
  - apply (f_equal length) in Ed. rewrite length_drop in Ed. simpl in Ed. lia.
  - simpl. rewrite drop_0.
    replace (S (off q)) with (off q + 1) by lia.
    by rewrite <- drop_drop, Ed.
Qed.

Lemma elems_nil q : wf_slice q -> len q = 0 -> elems q = [].
Proof. intros Hwf H0. apply length_zero_iff_nil. by rewrite length_elems. Qed.

Lemma index0_Some q e x :
  wf_slice q -> index0 q = Some e ->
  0 < len q /\ elems q = e :: elems (reslice1 (set0 q x)).
Proof.
  intros Hwf Hi.
  assert (0 < len q) as Hlt.
  { unfold index0 in Hi. by case_decide. }
  split; [done|]. rewrite elems_pop by done.
  rewrite index0_elems in Hi by done.
  destruct (elems q); simpl in *; by simplify_eq.
Qed.

Lemma index0_is_Some q : wf_slice q -> 0 < len q -> is_Some (index0 q).
Proof.
  unfold wf_slice, index0. intros Hwf Hlt. rewrite decide_True by done.
  apply lookup_lt_is_Some. lia.
Qed.

Lemma wf_pop q x : wf_slice q -> 0 < len q -> wf_slice (reslice1 (set0 q x)).
Proof. unfold wf_slice. simpl. rewrite length_insert. lia. Qed.

Lemma cap_pop q x : cap (reslice1 (set0 q x)) = cap q - 1.
Proof. unfold cap. simpl. rewrite length_insert. lia. Qed.

(** *** Invariants of a run *)

Lemma inv_New : inv (NewUnboundedChan (T:=T)).
Proof. unfold inv, pc_inv, wf_slice. simpl. split_and!; done || lia. Qed.

Lemma proper_New : proper (NewUnboundedChan (T:=T)).
Proof. split; done. Qed.

(** Unfold one move [H : step a s = Some (s', e)] down to the channel
    operations. *)
Ltac unfold_step H :=
  unfold Chan.step, Chan.Close, Chan.processing, Chan.closed, recv_in,
    send_out, crash, chan_send, chan_recv, chan_close, set_pc, set_q,
    set_in, set_out, set_close, set_crashed in H;
  simpl in H.

(** Case analysis on what the [match]es of [H] look at, innermost first. *)
Ltac split_cases H :=
  repeat match type of H with
         | context [match ?x with _ => _ end] =>
             lazymatch x with
             | context [match _ with _ => _ end] => fail
             | _ => destruct x eqn:?
             end
         end.

Lemma step_inv a s s' e : inv s -> step a s = Some (s', e) -> inv s'.
Proof.
  intros (Hwf & Hci & Hco & Hpc) Hstep.
  destruct s as [[bi ki xi] [bo ko xo] [bc kc xc] q p cr].
  unfold inv, pc_inv in *. simpl in *.
  unfold_step Hstep. destruct cr; [done|].
  destruct a, p; simpl in *; split_cases Hstep; simplify_eq; simpl in *;
    destruct_and?;
    try (split_and!; first [done | lia | congruence | by apply wf_append
                           | by apply wf_make | by apply wf_pop
                           | by rewrite cap_make; lia]).
Qed.

Lemma step_crashed a s : crashed s = true -> step a s = None.
Proof. unfold Chan.step. by intros ->. Qed.

Lemma exec_inv l s s' evs : inv s -> exec l s = Some (s', evs) -> inv s'.
Proof.
  revert s evs. induction l as [|a l IH]; simpl; intros s evs Hinv Hex.
  - by simplify_eq.
  - destruct (step a s) as [[s1 e1]|] eqn:E1; [|done].
    destruct (exec l s1) as [[s2 e2]|] eqn:E2; [|done]. simplify_eq.
    eapply IH; [|done]. by eapply step_inv.
Qed.

Lemma exec_app l1 l2 s :
  exec (l1 ++ l2) s =
  match exec l1 s with
  | Some (s1, e1) =>
      match exec l2 s1 with
      | Some (s2, e2) => Some (s2, e1 ++ e2)
      | None => None
      end
  | None => None
  end.
Proof.
  revert s. induction l1 as [|a l1 IH]; simpl; intros s.
  - by destruct (exec l2 s) as [[? ?]|].
  - destruct (step a s) as [[s1 e1]|]; [|done]. rewrite IH.
    destruct (exec l1 s1) as [[s2 e2]|]; [|done].
    destruct (exec l2 s2) as [[s3 e3]|]; [|done]. by rewrite app_assoc.
Qed.

(** Nothing is lost, duplicated or reordered by a move: what is received
    comes off the front of what is pending, what is sent goes to its back. *)
Lemma step_pending a s s' e :
  inv s -> step a s = Some (s', e) ->
  recvd e ++ pending s' = pending s ++ sent e.
Proof.
  intros (Hwf & Hci & Hco & Hpc) Hstep.
  destruct s as [[bi ki xi] [bo ko xo] [bc kc xc] q p cr].
  unfold inv, pc_inv, pending in *. simpl in *.
  unfold_step Hstep. destruct cr; [done|].
  destruct a, p; simpl in *; split_cases Hstep; simplify_eq; simpl in *;
    destruct_and?;
    repeat match goal with
           | H : index0 _ = Some _ |- _ =>
               apply (index0_Some _ _ nilT Hwf) in H as [? ->]
           end;
    rewrite ?elems_append, ?elems_make, ?(elems_nil q) by done;
    rewrite ?app_nil_r, <- ?app_assoc; done.
Qed.

Lemma sent_app evs1 evs2 : sent (evs1 ++ evs2) = sent evs1 ++ sent evs2.
Proof. apply omap_app. Qed.

Lemma recvd_app evs1 evs2 : recvd (evs1 ++ evs2) = recvd evs1 ++ recvd evs2.
Proof. apply omap_app. Qed.

Lemma observed_app evs1 evs2 :
  observed (evs1 ++ evs2) = observed evs1 ++ observed evs2.
Proof. apply omap_app. Qed.

Lemma exec_pending l s s' evs :
  inv s -> exec l s = Some (s', evs) ->
  recvd evs ++ pending s' = pending s ++ sent evs.
Proof.
  revert s evs. induction l as [|a l IH]; simpl; intros s evs Hinv Hex.
  - simplify_eq. simpl. by rewrite app_nil_r.
  - destruct (step a s) as [[s1 e1]|] eqn:E1; [|done].
    destruct (exec l s1) as [[s2 e2]|] eqn:E2; [|done]. simplify_eq.
    rewrite recvd_app, sent_app, <- app_assoc.
    rewrite (IH _ _ (step_inv _ _ _ _ Hinv E1) E2).
    rewrite !app_assoc. f_equal. by eapply step_pending.
Qed.

(** Moves of the dispatcher and the receiver keep a run proper, send
    nothing, and stay on their side of [Close()]. *)
Lemma step_proper a s s' e :
  inv s -> proper s -> is_dispatcher a || is_recv a = true ->
  step a s = Some (s', e) ->
  proper s' /\ sent e = [] /\
  close_received (at_pc s') = close_received (at_pc s).
Proof.
  intros (Hwf & Hci & Hco & Hpc) [Hcr Hp] Ha Hstep.
  destruct s as [[bi ki xi] [bo ko xo] [bc kc xc] q p cr].
  unfold inv, pc_inv, proper in *. simpl in *. subst cr.
  unfold_step Hstep.
  destruct a, p; simpl in *; try done; split_cases Hstep; simplify_eq;
    simpl in *; destruct_and?; simplify_eq; try done;
    try (by specialize (Hp eq_refl));
    try (by apply index0_is_Some in Hwf as [? ?]; [simplify_eq|]).
Qed.

Lemma step_send_proper v s s' e :
  inv s -> proper s -> close_received (at_pc s) = false ->
  step (ASend v) s = Some (s', e) ->
  proper s' /\ e = [EvSent v] /\ at_pc s' = at_pc s.
Proof.
  intros (Hwf & Hci & Hco & Hpc) [Hcr Hp] Ha Hstep.
  destruct s as [[bi ki xi] [bo ko xo] [bc kc xc] q p cr].
  unfold inv, pc_inv, proper in *. simpl in *. subst cr.
  unfold_step Hstep.
  destruct p; simpl in *; try done; split_cases Hstep; simplify_eq;
    simpl in *; destruct_and?; simplify_eq; try done;
    try (by specialize (Hp eq_refl)).
Qed.

Lemma step_close_proper s s' e :
  inv s -> proper s -> close_received (at_pc s) = false ->
  step AClose s = Some (s', e) ->
  proper s' /\ e = [EvCloseRet] /\ at_pc s' = PClosed.
Proof.
  intros (Hwf & Hci & Hco & Hpc) [Hcr Hp] Ha Hstep.
  destruct s as [[bi ki xi] [bo ko xo] [bc kc xc] q p cr].
  unfold inv, pc_inv, proper in *. simpl in *. subst cr.
  unfold_step Hstep.
  destruct p; simpl in *; try done; split_cases Hstep; simplify_eq;
    simpl in *; destruct_and?; simplify_eq; try done.
Qed.

(** Unless all is at rest, the dispatcher or the receiver can move, and
    the move brings the rest nearer. *)
Lemma len_make c : len (make c) = 0.
Proof. reflexivity. Qed.

Ltac no_index0 Hwf :=
  match goal with
  | H : index0 ?q = None |- _ =>
      let H' := fresh in
      destruct (index0_is_Some q Hwf) as [? H']; [lia | congruence]
  end.

Ltac by_step a Hwf :=
  right; exists a;
  match goal with
  | |- exists s' e, _ /\ Chan.step ?n ?g a ?s = _ /\ _ =>
      let E := fresh "E" in
      destruct (Chan.step n g a s) as [[? ?]|] eqn:E;
      unfold_step E; split_cases E; simplify_eq;
      try no_index0 Hwf; try (simpl in *; lia);
      eexists _, _; (split; [done|]); (split; [done|]);
      unfold mu; simpl; rewrite ?len_append, ?len_make; simpl in *; lia
  end.

Lemma progress s :
  inv s -> proper s ->
  at_rest s \/
  exists a s' e, is_dispatcher a || is_recv a = true /\
                 step a s = Some (s', e) /\ mu s' < mu s.
Proof.
  intros (Hwf & Hci & Hco & Hpc) [Hcr Hp].
  destruct s as [[bi ki xi] [bo ko xo] [bc kc xc] q p cr].
  unfold inv, pc_inv, proper, at_rest in *. simpl in *. subst cr ki ko.
  destruct bo as [|y bo]; [|by_step (@ARecv T) Hwf].
  destruct p; destruct_and?; subst.
  - by_step (@ATick T) Hwf.
  - destruct bi as [|e bi]; [left; by eauto|]. by_step (@ARecvIn T) Hwf.
  - by_step (@ATick T) Hwf.
  - by_step (@ASendOut T) Hwf.
  - by_step (@ATick T) Hwf.
  - destruct xi; [by specialize (Hp eq_refl)|]. by_step (@ATick T) Hwf.
  - by_step (@ATick T) Hwf.
  - by_step (@ATick T) Hwf.
  - by_step (@ATick T) Hwf.
  - by_step (@ATick T) Hwf.
  - left. eauto.
Qed.

(** A move of the dispatcher or the receiver brings the rest nearer,
    unless it changes nothing: the [default:] of [closed()] while [ch.out]
    is full, and a receive that returns end-of-stream. *)
Lemma draining_step_mu a s s' e :
  inv s -> proper s -> draining a = true ->
  step a s = Some (s', e) ->
  mu s' < mu s \/ s' = s.
Proof.
  intros (Hwf & Hci & Hco & Hpc) [Hcr Hp] Ha Hstep.
  destruct s as [[bi ki xi] [bo ko xo] [bc kc xc] q p cr].
  unfold inv, pc_inv, proper in *. simpl in *. subst cr.
  unfold_step Hstep.
  destruct a, p; simpl in *; try done; split_cases Hstep; simplify_eq;
    simpl in *; destruct_and?; simplify_eq;
    try (by specialize (Hp eq_refl));
    try (by apply index0_is_Some in Hwf as [? ?]; [simplify_eq|]);
    try (by right);
    left; unfold mu; simpl;
    rewrite ?len_append, ?len_make, ?length_app; simpl;
    repeat match goal with
           | H : index0 _ = Some _ |- _ =>
               apply (index0_Some _ _ nilT Hwf) in H as [? _]
           end; lia.
Qed.

Lemma run_to_rest s :
  inv s -> proper s ->
  exists l s' evs,
    Forall (fun a => draining a = true) l /\
    exec l s = Some (s', evs) /\
    at_rest s' /\ inv s' /\ proper s' /\ sent evs = [] /\
    close_received (at_pc s') = close_received (at_pc s).
Proof.
  remember (mu s) as n eqn:En. revert s En.
  induction n as [n IH] using lt_wf_ind. intros s -> Hinv Hp.
  destruct (progress s Hinv Hp) as [Hrest|(a & s1 & e1 & Ha & E1 & Hmu)].
  - exists [], s, []. by split_and!.
  - pose proof (step_inv _ _ _ _ Hinv E1) as Hinv1.
    destruct (step_proper _ _ _ _ Hinv Hp Ha E1) as (Hp1 & Hs1 & Hc1).
    destruct (IH _ Hmu s1 eq_refl Hinv1 Hp1)
      as (l & s2 & e2 & Hl & E2 & Hrest & Hinv2 & Hp2 & Hs2 & Hc2).
    exists (a :: l), s2, (e1 ++ e2). split_and!; try done.
    + by constructor.
    + simpl. by rewrite E1, E2.
    + by rewrite sent_app, Hs1, Hs2.
    + congruence.
Qed.

(** *** What the receiver observes *)

Lemma eos_pending s : inv s -> eos s -> pending s = [].
Proof.
  intros (Hwf & Hci & Hco & Hpc) [Hc Hb].
  destruct s as [[bi ki xi] [bo ko xo] [bc kc xc] q p cr].
  unfold inv, pc_inv, pending in *. simpl in *. subst.
  destruct p; destruct_and?; simplify_eq; by rewrite elems_nil.
Qed.

Lemma eos_step a s s' e :
  inv s -> eos s -> step a s = Some (s', e) ->
  eos s' /\ recvd e = [] /\ sent e = [] /\
  (observed e = [] \/ observed e = [None]).
Proof.
  intros (Hwf & Hci & Hco & Hpc) [Hc Hb] Hstep.
  destruct s as [[bi ki xi] [bo ko xo] [bc kc xc] q p cr].
  unfold inv, pc_inv, eos in *. simpl in *. subst.
  unfold_step Hstep. destruct cr; [done|].
  destruct a, p; simpl in *; destruct_and?; simplify_eq;
    try split_cases Hstep; simplify_eq; simpl; split_and?; eauto.
Qed.

Lemma step_observed a s s' e :
  inv s -> step a s = Some (s', e) ->
  observed e = (Some <$> recvd e) \/ (e = [EvEOS] /\ s' = s /\ eos s).
Proof.
  intros (Hwf & Hci & Hco & Hpc) Hstep.
  destruct s as [[bi ki xi] [bo ko xo] [bc kc xc] q p cr].
  unfold inv, pc_inv, eos in *. simpl in *. subst.
  unfold_step Hstep. destruct cr; [done|].
  destruct a; simpl in *; split_cases Hstep; simplify_eq; simpl; eauto.
Qed.

Lemma exec_eos l s s' evs :
  inv s -> eos s -> exec l s = Some (s', evs) ->
  eos s' /\ recvd evs = [] /\ sent evs = [] /\
  exists m, observed evs = replicate m None.
Proof.
  revert s evs. induction l as [|a l IH]; simpl; intros s evs Hinv He Hex.
  - simplify_eq. split_and!; try done. by exists 0.
  - destruct (step a s) as [[s1 e1]|] eqn:E1; [|done].
    destruct (exec l s1) as [[s2 e2]|] eqn:E2; [|done]. simplify_eq.
    destruct (eos_step _ _ _ _ Hinv He E1) as (He1 & Hr1 & Hs1 & Ho1).
    destruct (IH _ _ (step_inv _ _ _ _ Hinv E1) He1 E2)
      as (He2 & Hr2 & Hs2 & m & Ho2).
    rewrite recvd_app, sent_app, observed_app, Hr1, Hr2, Hs1, Hs2, Ho2.
    split_and!; try done.
    destruct Ho1 as [-> | ->]; [by exists m | by exists (S m)].
Qed.

(** The receiver sees values, then end-of-stream only. *)
Lemma exec_observed l s s' evs :
  inv s -> exec l s = Some (s', evs) ->
  exists m, observed evs = (Some <$> recvd evs) ++ replicate m None /\
            (0 < m -> eos s').
Proof.
  revert s evs. induction l as [|a l IH]; simpl; intros s evs Hinv Hex.
  - simplify_eq. exists 0. split; [done | lia].
  - destruct (step a s) as [[s1 e1]|] eqn:E1; [|done].
    destruct (exec l s1) as [[s2 e2]|] eqn:E2; [|done]. simplify_eq.
    pose proof (step_inv _ _ _ _ Hinv E1) as Hinv1.
    rewrite recvd_app, observed_app, fmap_app.
    destruct (step_observed _ _ _ _ Hinv E1) as [Ho1 | (-> & -> & He)].
    + destruct (IH _ _ Hinv1 E2) as (m & Ho2 & Hm).
      exists m. by rewrite Ho1, Ho2, app_assoc.
    + destruct (exec_eos _ _ _ _ Hinv He E2) as (He2 & Hr2 & _ & m & Ho2).
      exists (S m). rewrite Hr2, Ho2. done.
Qed.

(** *** Runs of the scenarios *)

Lemma dispatcher_silent a s s' e :
  is_dispatcher a = true -> step a s = Some (s', e) ->
  recvd e = [] /\ observed e = [].
Proof.
  intros Ha Hstep. destruct s as [[bi ki xi] [bo ko xo] [bc kc xc] q p cr].
  unfold_step Hstep. destruct cr; [done|].
  destruct a; try done; simpl in *; split_cases Hstep; by simplify_eq.
Qed.

Lemma feeding_run l s s' evs :
  inv s -> proper s -> close_received (at_pc s) = false ->
  Forall (fun a => feeding a = true) l ->
  exec l s = Some (s', evs) ->
  inv s' /\ proper s' /\ close_received (at_pc s') = false /\
  sent evs = sends_of l /\ observed evs = [].
Proof.
  revert s evs. induction l as [|a l IH]; simpl; intros s evs Hinv Hp Ho Hl Hex.
  - by simplify_eq.
  - destruct (step a s) as [[s1 e1]|] eqn:E1; [|done].
    destruct (exec l s1) as [[s2 e2]|] eqn:E2; [|done]. simplify_eq.
    apply Forall_cons in Hl as [Ha Hl].
    pose proof (step_inv _ _ _ _ Hinv E1) as Hinv1.
    assert (proper s1 /\ close_received (at_pc s1) = false /\
            sent e1 = sends_of [a] /\ observed e1 = []) as (Hp1 & Ho1 & Hs1 & Hb1).
    { destruct (is_dispatcher a) eqn:Hd.
      - destruct (step_proper a s s1 e1 Hinv Hp) as (? & ? & ?); [by rewrite Hd | done |].
        destruct (dispatcher_silent _ _ _ _ Hd E1) as [_ ?].
        split_and!; [done | congruence | | done]. by destruct a.
      - destruct a; try done.
        destruct (step_send_proper _ _ _ _ Hinv Hp Ho E1) as (? & -> & ?).
        split_and!; [done | congruence | done | done]. }
    destruct (IH _ _ Hinv1 Hp1 Ho1 Hl E2) as (? & ? & ? & Hs2 & Hb2).
    split_and!; try done.
    + rewrite sent_app, Hs1, Hs2. by destruct a.
    + by rewrite observed_app, Hb1, Hb2.
Qed.

Lemma draining_run l s s' evs :
  inv s -> proper s ->
  Forall (fun a => draining a = true) l ->
  exec l s = Some (s', evs) ->
  inv s' /\ proper s' /\ sent evs = [] /\
  close_received (at_pc s') = close_received (at_pc s).
Proof.
  revert s evs. induction l as [|a l IH]; simpl; intros s evs Hinv Hp Hl Hex.
  - by simplify_eq.
  - destruct (step a s) as [[s1 e1]|] eqn:E1; [|done].
    destruct (exec l s1) as [[s2 e2]|] eqn:E2; [|done]. simplify_eq.
    apply Forall_cons in Hl as [Ha Hl].
    pose proof (step_inv _ _ _ _ Hinv E1) as Hinv1.
    destruct (step_proper a _ _ _ Hinv Hp Ha E1) as (Hp1 & Hs1 & Hc1).
    destruct (IH _ _ Hinv1 Hp1 Hl E2) as (? & ? & Hs2 & Hc2).
    split_and!; try done; [by rewrite sent_app, Hs1, Hs2 | congruence].
Qed.

Lemma open_run l s s' evs :
  inv s -> proper s -> close_received (at_pc s) = false ->
  Forall (fun a => open_use a = true) l ->
  exec l s = Some (s', evs) ->
  inv s' /\ proper s' /\ close_received (at_pc s') = false /\
  sent evs = sends_of l /\ observed evs = (Some <$> recvd evs).
Proof.
  revert s evs. induction l as [|a l IH]; simpl; intros s evs Hinv Hp Ho Hl Hex.
  - by simplify_eq.
  - destruct (step a s) as [[s1 e1]|] eqn:E1; [|done].
    destruct (exec l s1) as [[s2 e2]|] eqn:E2; [|done]. simplify_eq.
    apply Forall_cons in Hl as [Ha Hl].
    pose proof (step_inv _ _ _ _ Hinv E1) as Hinv1.
    assert (proper s1 /\ close_received (at_pc s1) = false /\
            sent e1 = sends_of [a] /\ observed e1 = (Some <$> recvd e1))
      as (Hp1 & Ho1 & Hs1 & Hb1).
    { destruct (draining a) eqn:Hd.
      - destruct (step_proper a _ _ _ Hinv Hp Hd E1) as (? & ? & Hc).
        split_and!; [done | congruence | by destruct a |].
        destruct (step_observed _ _ _ _ Hinv E1) as [?|(_ & _ & [He _])]; [done|].
        exfalso. destruct Hinv as (_ & _ & _ & Hpc). unfold pc_inv in Hpc.
        destruct (at_pc s); destruct_and?; simpl in *; congruence.
      - destruct a; try done.
        destruct (step_send_proper _ _ _ _ Hinv Hp Ho E1) as (? & -> & ?).
        split_and!; [done | congruence | done | done]. }
    destruct (IH _ _ Hinv1 Hp1 Ho1 Hl E2) as (? & ? & ? & Hs2 & Hb2).
    split_and!; try done.
    + rewrite sent_app, Hs1, Hs2. by destruct a.
    + by rewrite observed_app, recvd_app, fmap_app, Hb1, Hb2.
Qed.

Lemma rest_after_close s :
  inv s -> at_rest s -> close_received (at_pc s) = true ->
  crashed s = false ->
  eos s /\ step ARecv s = Some (s, [EvEOS]).
Proof.
  intros (Hwf & Hci & Hco & Hpc) [Hb Hr] Hc Hcr.
  destruct s as [[bi ki xi] [bo ko xo] [bc kc xc] q p cr].
  unfold inv, pc_inv, eos in *. simpl in *. subst.
  destruct Hr as [-> | [-> _]]; [|done]. destruct_and?. by subst.
Qed.

Lemma rest_while_open s :
  inv s -> at_rest s -> close_received (at_pc s) = false -> pending s = [].
Proof.
  intros (Hwf & Hci & Hco & Hpc) [Hb Hr] Hc.
  destruct s as [[bi ki xi] [bo ko xo] [bc kc xc] q p cr].
  unfold inv, pc_inv, pending in *. simpl in *. subst.
  destruct Hr as [-> | [-> ->]]; [done|]. destruct_and?. by rewrite elems_nil.
Qed.

(** *** The claims about the channel *)

(** C1. Senders send [v1..vn] on [In()] while nobody receives, then
    [Close()] is called once and returns, and from then on the receiver
    receives. Whatever the interleaving with the dispatcher, the receiver
    sees a prefix of [v1..vn] in order and no end-of-stream before all of
    [v1..vn]; no panic occurs; from every such state the dispatcher and
    the receiver can go on until the receiver has seen exactly [v1..vn]
    followed by end-of-stream; and each of their moves either brings that
    end nearer or changes nothing. *)
Theorem drain_on_close pre post s evs :
  Forall (fun a => feeding a = true) pre ->
  Forall (fun a => draining a = true) post ->
  exec (pre ++ AClose :: post) NewUnboundedChan = Some (s, evs) ->
  crashed s = false /\
  (exists m, observed evs = (Some <$> recvd evs) ++ replicate m None /\
             recvd evs `prefix_of` sends_of pre /\
             (0 < m -> recvd evs = sends_of pre)) /\
  (exists rest s' evs' m,
     Forall (fun a => draining a = true) rest /\
     exec (rest ++ [ARecv]) s = Some (s', evs') /\
     observed (evs ++ evs') = (Some <$> sends_of pre) ++ replicate (S m) None) /\
  (forall a s1 e, draining a = true -> step a s = Some (s1, e) ->
                  mu s1 < mu s \/ s1 = s).
Proof.
  intros Hpre Hpost Hex.
  pose proof (exec_pending _ _ _ _ inv_New Hex) as Hcons.
  destruct (exec_observed _ _ _ _ inv_New Hex) as (m & Hobs & Hm).
  pose proof (exec_inv _ _ _ _ inv_New Hex) as Hinv.
  rewrite exec_app in Hex.
  destruct (exec pre NewUnboundedChan) as [[s1 e1]|] eqn:E1; [|done].
  simpl in Hex.
  destruct (step AClose s1) as [[s2 e2]|] eqn:E2; [|done].
  destruct (exec post s2) as [[s3 e3]|] eqn:E3; [|done]. simplify_eq.
  destruct (feeding_run _ _ _ _ inv_New proper_New eq_refl Hpre E1)
    as (Hinv1 & Hp1 & Ho1 & Hs1 & _).
  destruct (step_close_proper _ _ _ Hinv1 Hp1 Ho1 E2) as (Hp2 & -> & Hpc2).
  pose proof (step_inv _ _ _ _ Hinv1 E2) as Hinv2.
  destruct (draining_run _ _ _ _ Hinv2 Hp2 Hpost E3) as (_ & Hp3 & Hs3 & Hc3).
  rewrite Hpc2 in Hc3. simpl in Hc3.
  assert (sent (e1 ++ [EvCloseRet] ++ e3) = sends_of pre) as Hsent.
  { by rewrite !sent_app, Hs1, Hs3, app_nil_r. }
  rewrite Hsent in Hcons. simpl in Hcons.
  split; [apply Hp3|]. split; [|split].
  3:{ intros a sa ea Ha Ea. by eapply draining_step_mu. }
  - exists m. split; [done|]. split.
    + eexists. by rewrite <- Hcons.
    + intros Hpos. rewrite (eos_pending _ Hinv (Hm Hpos)), app_nil_r in Hcons.
      done.
  - destruct (run_to_rest s Hinv Hp3)
      as (rest & s' & e4 & Hrest & E4 & Hr & Hinv4 & Hp4 & Hs4 & Hc4).
    rewrite Hc3 in Hc4.
    destruct (rest_after_close s' Hinv4 Hr Hc4 (proj1 Hp4)) as [He4 E5].
    pose proof (exec_pending _ _ _ _ Hinv E4) as Hcons4.
    rewrite (eos_pending _ Hinv4 He4), Hs4, !app_nil_r in Hcons4.
    destruct (exec_observed _ _ _ _ Hinv E4) as (m4 & Hobs4 & _).
    exists rest, s', (e4 ++ [EvEOS]), (m + m4). split; [done|]. split.
    + rewrite exec_app, E4. simpl. by rewrite E5.
    + rewrite observed_app, Hobs, observed_app, Hobs4. simpl.
      assert (replicate m None ++ (Some <$> recvd e4)
              = (Some <$> recvd e4) ++ replicate m (@None T)) as Hswap.
      { destruct m as [|m]; [by rewrite app_nil_r|].
        assert (0 < S m) as Hpos by lia. specialize (Hm Hpos).
        rewrite (eos_pending _ Hinv Hm) in Hcons4. rewrite Hcons4.
        simpl. by rewrite app_nil_r. }
      rewrite <- !app_assoc, (app_assoc (replicate m None)), Hswap.
      rewrite <- !app_assoc, (app_assoc (Some <$> _)), <- fmap_app.
      rewrite Hcons4, Hcons. f_equal.
      by rewrite app_assoc, <- replicate_add, <- replicate_cons_app.
Qed.

(** C2. On a channel that stays open (senders, dispatcher and one
    receiver move; nobody closes it), the receiver sees values only, they
    are a prefix of the values sent, in the order sent, and the values not
    yet received are all still on their way, in order; the dispatcher and
    the receiver can go on until every value sent has been received. *)
Theorem order_preserved l s evs :
  Forall (fun a => open_use a = true) l ->
  exec l NewUnboundedChan = Some (s, evs) ->
  crashed s = false /\
  sent evs = sends_of l /\
  observed evs = (Some <$> recvd evs) /\
  recvd evs ++ pending s = sent evs /\
  (exists rest s' evs',
     Forall (fun a => draining a = true) rest /\
     exec rest s = Some (s', evs') /\
     recvd (evs ++ evs') = sent evs /\ pending s' = []).
Proof.
  intros Hl Hex.
  pose proof (exec_pending _ _ _ _ inv_New Hex) as Hcons. simpl in Hcons.
  destruct (open_run _ _ _ _ inv_New proper_New eq_refl Hl Hex)
    as (Hinv & Hp & Ho & Hs & Hobs).
  split; [apply Hp|]. split_and!; try done.
  destruct (run_to_rest s Hinv Hp)
    as (rest & s' & e4 & Hrest & E4 & Hr & Hinv4 & Hp4 & Hs4 & Hc4).
  rewrite Ho in Hc4.
  pose proof (exec_pending _ _ _ _ Hinv E4) as Hcons4.
  pose proof (rest_while_open s' Hinv4 Hr Hc4) as Hpend.
  rewrite Hpend, Hs4, !app_nil_r in Hcons4.
  exists rest, s', e4. split_and!; try done.
  by rewrite recvd_app, Hcons4.
Qed.

Lemma step_within_capacity a s s' e :
  within_capacity s -> step a s = Some (s', e) -> within_capacity s'.
Proof.
  intros [Hi Ho] Hstep.
  destruct s as [[bi ki xi] [bo ko xo] [bc kc xc] q p cr].
  unfold within_capacity in *. simpl in *.
  unfold_step Hstep. destruct cr; [done|].
  destruct a; [..|destruct p]; simpl in *; split_cases Hstep; simplify_eq;
    simpl in *; rewrite ?length_app; simpl; lia.
Qed.

Lemma exec_within_capacity l s s' evs :
  within_capacity s -> exec l s = Some (s', evs) -> within_capacity s'.
Proof.
  revert s evs. induction l as [|a l IH]; simpl; intros s evs Hw Hex.
  - by simplify_eq.
  - destruct (step a s) as [[s1 e1]|] eqn:E1; [|done].
    destruct (exec l s1) as [[s2 e2]|] eqn:E2; [|done]. simplify_eq.
    eapply IH; [|done]. by eapply step_within_capacity.
Qed.

(** At a [select] the dispatcher takes a staged value, and a sender that
    found [ch.in] full can then send. *)
Lemma recv_in_unblocks s v :
  inv s -> proper s ->
  at_pc s = PSelect1 \/ at_pc s = PSelect2 ->
  length (buf (ch_in s)) = 16 ->
  exists s1 s2, step ARecvIn s = Some (s1, []) /\
                step (ASend v) s1 = Some (s2, [EvSent v]).
Proof.
  intros (Hwf & Hci & Hco & Hpc) [Hcr Hp] Hat Hlen.
  destruct s as [[bi ki xi] [bo ko xo] [bc kc xc] q p cr].
  unfold inv, pc_inv, proper in *. simpl in *. subst cr ki.
  destruct xi; [destruct Hat as [-> | ->]; by specialize (Hp eq_refl)|].
  destruct bi as [|e bi]; [done|]. simpl in Hlen.
  destruct Hat as [-> | ->]; eexists _, _;
    (split; [reflexivity|]); unfold Chan.step, chan_send;
    simpl; by rewrite decide_True by lia.
Qed.

(** From anywhere in its loop the dispatcher reaches a [select] in at most
    two statements, touching neither [ch.in] nor the senders. *)
Lemma tick_to_select s :
  inv s -> proper s -> close_received (at_pc s) = false ->
  exists ds s1,
    Forall (fun a => is_dispatcher a = true) ds /\ length ds <= 2 /\
    exec ds s = Some (s1, []) /\ ch_in s1 = ch_in s /\
    (at_pc s1 = PSelect1 \/ at_pc s1 = PSelect2).
Proof.
  intros (Hwf & Hci & Hco & Hpc) [Hcr Hp] Ho.
  destruct s as [[bi ki xi] [bo ko xo] [bc kc xc] q p cr].
  unfold inv, pc_inv, proper in *. simpl in *. subst cr.
  destruct p; try done.
  - exists [ATick]. eexists. split_and!; [by repeat constructor | simpl; lia | reflexivity | done | by left].
  - exists []. eexists. split_and!; [by repeat constructor | simpl; lia | reflexivity | done | by left].
  - destruct (decide (0 < len q)) as [Hlt|Hlt].
    + exists [ATick]. eexists. split_and!; [by repeat constructor | simpl; lia | | |].
      * simpl. unfold Chan.step, Chan.processing, Chan.closed. simpl. by rewrite decide_True.
      * done.
      * by right.
    + exists [ATick; ATick].
      destruct (decide (cap q < 32)) as [Hc|Hc]; eexists;
        (split_and!; [by repeat constructor | simpl; lia | | |]);
        try (simpl; unfold Chan.step, Chan.processing, Chan.closed; simpl;
             rewrite decide_False by done; simpl;
             first [by rewrite decide_True by done
                   | by rewrite decide_False by done]);
        first [done | by left].
  - exists []. eexists. split_and!; [by repeat constructor | simpl; lia | reflexivity | done | by right].
  - exists [ATick].
    destruct (decide (cap q < 32)) as [Hc|Hc]; eexists;
      (split_and!; [by repeat constructor | simpl; lia | | |]);
      try (simpl; unfold Chan.step, Chan.processing, Chan.closed; simpl;
           first [by rewrite decide_True by done
                 | by rewrite decide_False by done]);
      first [done | by left].
Qed.

(** C4, as the code has it. [ch.in] stages at most 16 values. On an open
    channel a send returns at once while fewer than 16 are staged; with 16
    staged it blocks, and then the dispatcher, within three statements of
    its own and whatever [ch.q] and [ch.out] hold, takes one staged value,
    after which the send goes through. *)
Theorem send_waits_for_dispatcher_only l s evs v :
  Forall (fun a => open_use a = true) l ->
  exec l NewUnboundedChan = Some (s, evs) ->
  length (buf (ch_in s)) <= 16 /\
  (length (buf (ch_in s)) < 16 ->
   exists s', step (ASend v) s = Some (s', [EvSent v])) /\
  (length (buf (ch_in s)) = 16 ->
   step (ASend v) s = None /\
   exists ds s1 s2,
     Forall (fun a => is_dispatcher a = true) ds /\ length ds <= 3 /\
     exec ds s = Some (s1, []) /\
     step (ASend v) s1 = Some (s2, [EvSent v])).
Proof.
  intros Hl Hex.
  destruct (open_run _ _ _ _ inv_New proper_New eq_refl Hl Hex)
    as (Hinv & Hp & Ho & _ & _).
  assert (within_capacity s) as [Hwi _].
  { eapply exec_within_capacity; [|exact Hex]. split; simpl; lia. }
  assert (capacity (ch_in s) = 16) as Hcap by apply Hinv.
  assert (crashed s = false) as Hcr by apply Hp.
  assert (is_closed (ch_in s) = false) as Hcl.
  { destruct Hp as [_ Hp]. destruct (is_closed (ch_in s)); [|done].
    specialize (Hp eq_refl). by destruct (at_pc s). }
  rewrite Hcap in Hwi. split; [done|]. split.
  - intros Hlt. unfold Chan.step, chan_send. rewrite Hcr, Hcl, Hcap.
    rewrite decide_True by done. eauto.
  - intros Hfull. split.
    + unfold Chan.step, chan_send. rewrite Hcr, Hcl, Hcap.
      by rewrite decide_False by lia.
    + destruct (tick_to_select s Hinv Hp Ho) as (ds & s1 & Hds & Hlen & E1 & Hin & Hat).
      assert (Forall (fun a => draining a = true) ds) as Hdr.
      { eapply Forall_impl; [exact Hds|]. intros a Ha. unfold draining.
        by rewrite Ha. }
      destruct (draining_run _ _ _ _ Hinv Hp Hdr E1) as (Hinv1 & Hp1 & _).
      destruct (recv_in_unblocks s1 v Hinv1 Hp1 Hat) as (s2 & s3 & E2 & E3).
      { by rewrite Hin. }
      exists (ds ++ [ARecvIn]), s2, s3. split_and!.
      * apply Forall_app. split; [done|]. by repeat constructor.
      * rewrite length_app. simpl. lia.
      * rewrite exec_app, E1. simpl. by rewrite E2.
      * done.
Qed.

(** C5. Once [closed()] has run to its end, a send on [In()] panics and so
    does a second [Close()]; neither blocks nor returns, and after the
    panic nothing moves any more. A send panics as soon as [closed()] has
    closed [ch.in]. *)
Theorem misuse_after_close_panics l s evs :
  exec l NewUnboundedChan = Some (s, evs) ->
  crashed s = false ->
  (is_closing (at_pc s) = true ->
   forall v, step (ASend v) s = Some (set_crashed s, [EvPanic])) /\
  (at_pc s = PDone ->
   (forall v, step (ASend v) s = Some (set_crashed s, [EvPanic])) /\
   step AClose s = Some (set_crashed s, [EvPanic]) /\
   forall a, step a (set_crashed s) = None).
Proof.
  intros Hex Hcr.
  destruct (exec_inv _ _ _ _ inv_New Hex) as (_ & _ & _ & Hpc).
  assert (is_closing (at_pc s) = true ->
          forall v, step (ASend v) s = Some (set_crashed s, [EvPanic])) as Hsend.
  { intros Hc v. unfold Chan.step, chan_send, pc_inv in *. rewrite Hcr.
    destruct (at_pc s); try done; destruct_and?;
      by match goal with H : is_closed (ch_in s) = true |- _ => rewrite H end. }
  split; [done|]. intros Hd. split_and!.
  - apply Hsend. by rewrite Hd.
  - unfold Chan.step, Chan.Close, pc_inv in *. rewrite Hcr. rewrite Hd in Hpc.
    destruct_and?.
    by match goal with H : is_closed (ch_close s) = true |- _ => rewrite H end.
  - intros a. by apply step_crashed.
Qed.

(** C10. [processing] starts with a buffer [make(_, 0, 1<<10)]. Whenever
    it reaches [if cap(ch.q) < 1<<5] the buffer is empty, and the statement
    replaces it by a fresh [make(_, 0, 1<<10)] when its capacity is below
    32 and keeps it otherwise; the statement is what follows the inner loop
    when the buffer has drained; so at the first [select] the buffer is
    empty with a capacity of at least 32. *)
Theorem buffer_reallocated_when_drained l s evs :
  exec l NewUnboundedChan = Some (s, evs) ->
  crashed s = false ->
  (at_pc s = PStart ->
   exists s', step ATick s = Some (s', []) /\ at_pc s' = PSelect1 /\
     ch_q s' = make 1024 /\ len (ch_q s') = 0 /\ cap (ch_q s') = 1024) /\
  (at_pc s = PCheck ->
   len (ch_q s) = 0 /\
   exists s', step ATick s = Some (s', []) /\ at_pc s' = PSelect1 /\
     ch_q s' = (if decide (cap (ch_q s) < 32) then make 1024 else ch_q s) /\
     len (ch_q s') = 0 /\ 32 <= cap (ch_q s')) /\
  (at_pc s = PLoop -> len (ch_q s) = 0 ->
   exists s', step ATick s = Some (s', []) /\ at_pc s' = PCheck /\
     ch_q s' = ch_q s) /\
  (at_pc s = PSelect1 -> len (ch_q s) = 0 /\ 32 <= cap (ch_q s)).
Proof.
  intros Hex Hcr.
  destruct (exec_inv _ _ _ _ inv_New Hex) as (_ & _ & _ & Hpc).
  unfold pc_inv in Hpc. split_and!; intros Hat; rewrite Hat in Hpc.
  3:{ intros Hlen. eexists. unfold Chan.step, Chan.processing.
      rewrite Hcr, Hat, Hlen. simpl. by split_and!. }
  - eexists. unfold Chan.step, Chan.processing, Chan.closed. rewrite Hcr, Hat.
    split_and!; first [reflexivity | apply cap_make].
  - destruct Hpc as (Hlen & _). split; [done|].
    unfold Chan.step, Chan.processing, Chan.closed. rewrite Hcr, Hat. simpl.
    destruct (decide (cap (ch_q s) < 32)) as [Hc|Hc]; eexists;
      (split_and!; [reflexivity | reflexivity | reflexivity | |]);
      simpl; rewrite ?cap_make; done || lia.
  - destruct Hpc as (Hlen & Hcap & _). simpl in Hcap. done.
Qed.

(** *** Further properties of the channel *)

(** Any run: no value is lost, duplicated or reordered. *)

(** X1. Whatever the goroutines do, misuse and panics included: the
    values received, followed by those still in [ch.out], [ch.q] and
    [ch.in], are the values whose sends completed, in order; the receiver
    sees values and then end-of-stream only; and once it has seen
    end-of-stream it has received every value sent. *)
Theorem no_value_lost_or_reordered l s evs :
  exec l NewUnboundedChan = Some (s, evs) ->
  recvd evs ++ pending s = sent evs /\
  exists m, observed evs = (Some <$> recvd evs) ++ replicate m None /\
            (0 < m -> recvd evs = sent evs /\ pending s = []).
Proof.
  intros Hex.
  pose proof (exec_pending _ _ _ _ inv_New Hex) as Hcons. simpl in Hcons.
  pose proof (exec_inv _ _ _ _ inv_New Hex) as Hinv.
  destruct (exec_observed _ _ _ _ inv_New Hex) as (m & Hobs & Hm).
  split; [done|]. exists m. split; [done|]. intros Hpos.
  pose proof (eos_pending _ Hinv (Hm Hpos)) as Hnil.
  by rewrite Hnil, app_nil_r in Hcons.
Qed.

(** [ch.in] is closed by [closed()] only, as long as nobody runs
    [close(ch.In())]. *)
Lemma step_in_closed_by_closed a s s' e :
  inv s ->
  (is_closed (ch_in s) = true -> is_closing (at_pc s) = true) ->
  is_misuse a = false ->
  step a s = Some (s', e) ->
  is_closed (ch_in s') = true -> is_closing (at_pc s') = true.
Proof.
  intros (Hwf & Hci & Hco & Hpc) Hp Ha Hstep.
  destruct s as [[bi ki xi] [bo ko xo] [bc kc xc] q p cr].
  unfold inv, pc_inv in *. simpl in *.
  unfold_step Hstep. destruct cr; [done|].
  destruct a, p; simpl in *; try done; split_cases Hstep; simplify_eq;
    simpl in *; destruct_and?; simplify_eq; try done;
    intros; by apply Hp.
Qed.

Lemma exec_in_closed_by_closed l s s' evs :
  inv s ->
  (is_closed (ch_in s) = true -> is_closing (at_pc s) = true) ->
  Forall (fun a => is_misuse a = false) l ->
  exec l s = Some (s', evs) ->
  is_closed (ch_in s') = true -> is_closing (at_pc s') = true.
Proof.
  revert s evs. induction l as [|a l IH]; simpl; intros s evs Hinv Hp Hl Hex.
  - by simplify_eq.
  - destruct (step a s) as [[s1 e1]|] eqn:E1; [|done].
    destruct (exec l s1) as [[s2 e2]|] eqn:E2; [|done]. simplify_eq.
    apply Forall_cons in Hl as [Ha Hl].
    eapply IH; [by eapply step_inv | | done | done].
    by eapply step_in_closed_by_closed.
Qed.

(** X2. In a run without [close(ch.In())] that has not panicked, every
    value whose send has completed gets delivered, also one sent while
    [Close()] was under way: the dispatcher and the receiver can go on
    until all values sent have been received, and if [Close()] has
    returned the next receive then reports end-of-stream. *)
Theorem every_completed_send_is_delivered l s evs :
  Forall (fun a => is_misuse a = false) l ->
  exec l NewUnboundedChan = Some (s, evs) ->
  crashed s = false ->
  exists rest s' evs',
    Forall (fun a => draining a = true) rest /\
    exec rest s = Some (s', evs') /\
    recvd (evs ++ evs') = sent evs /\
    (close_received (at_pc s) = true -> step ARecv s' = Some (s', [EvEOS])).
Proof.
  intros Hl Hex Hcr.
  pose proof (exec_pending _ _ _ _ inv_New Hex) as Hcons. simpl in Hcons.
  pose proof (exec_inv _ _ _ _ inv_New Hex) as Hinv.
  assert (proper s) as Hp.
  { split; [done|].
    eapply (exec_in_closed_by_closed l NewUnboundedChan); eauto using inv_New. }
  destruct (run_to_rest s Hinv Hp)
    as (rest & s' & e4 & Hrest & E4 & Hr & Hinv4 & Hp4 & Hs4 & Hc4).
  pose proof (exec_pending _ _ _ _ Hinv E4) as Hcons4.
  rewrite Hs4, app_nil_r in Hcons4.
  assert (pending s' = []) as Hnil.
  { destruct (close_received (at_pc s')) eqn:Hc.
    - apply eos_pending; [done|].
      by destruct (rest_after_close s' Hinv4 Hr Hc (proj1 Hp4)).
    - by apply rest_while_open. }
  rewrite Hnil, app_nil_r in Hcons4.
  exists rest, s', e4. split_and!; try done.
  - by rewrite recvd_app, Hcons4.
  - intros Hc. rewrite <- Hc4 in Hc.
    by destruct (rest_after_close s' Hinv4 Hr Hc (proj1 Hp4)).
Qed.

(** X3. End-of-stream is final: once [ch.out] is closed and empty it stays
    so, no further value is received and no further send completes. *)
Theorem end_of_stream_is_final l1 l2 s1 e1 s2 e2 :
  exec l1 NewUnboundedChan = Some (s1, e1) ->
  eos s1 ->
  exec l2 s1 = Some (s2, e2) ->
  eos s2 /\ recvd e2 = [] /\ sent e2 = [] /\
  (exists m, observed e2 = replicate m None) /\
  recvd e1 = sent e1.
Proof.
  intros E1 He E2.
  pose proof (exec_inv _ _ _ _ inv_New E1) as Hinv.
  destruct (exec_eos _ _ _ _ Hinv He E2) as (He2 & Hr & Hs & Ho).
  pose proof (exec_pending _ _ _ _ inv_New E1) as Hcons. simpl in Hcons.
  rewrite (eos_pending _ Hinv He), app_nil_r in Hcons. by split_and!.
Qed.

(** X4. Misuse: after a goroutine has run [close(ch.In())] the dispatcher
    still takes the values staged in [ch.in] into [ch.q]; once none is
    left, taking [case e, ok := <-ch.in] panics. Every further send
    panics, and [Close()] still returns but [closed()] then panics at its
    [close(ch.in)]. *)
Theorem closing_In_directly_panics l s evs :
  exec l NewUnboundedChan = Some (s, evs) ->
  crashed s = false ->
  is_closed (ch_in s) = true ->
  at_pc s = PSelect1 \/ at_pc s = PSelect2 ->
  (forall v, step (ASend v) s = Some (set_crashed s, [EvPanic])) /\
  (buf (ch_in s) = [] ->
   step ARecvIn s = Some (set_crashed s, [EvPanic])) /\
  (forall e rest, buf (ch_in s) = e :: rest ->
   exists s', step ARecvIn s = Some (s', []) /\
     buf (ch_in s') = rest /\ elems (ch_q s') = elems (ch_q s) ++ [e] /\
     at_pc s' = PLoop) /\
  (exists s1, step AClose s = Some (s1, [EvCloseRet]) /\
     step ATick s1 = Some (set_crashed s1, [EvPanic])).
Proof.
  intros Hex Hcr Hcl Hat.
  destruct (exec_inv _ _ _ _ inv_New Hex) as (Hwf & _ & _ & Hpc).
  destruct s as [[bi ki xi] [bo ko xo] [bc kc xc] q p cr].
  unfold pc_inv in *. simpl in *. subst cr xi.
  assert (xc = false) as -> by (destruct Hat as [-> | ->]; by destruct_and?).
  split_and!.
  - intros v. reflexivity.
  - intros ->. by destruct Hat as [-> | ->].
  - intros e rest ->.
    destruct Hat as [-> | ->]; eexists; (split; [reflexivity|]); simpl;
      by rewrite elems_append.
  - destruct Hat as [-> | ->]; eexists; split; reflexivity.
Qed.

Lemma dispatcher_sends_nothing a s s' e :
  is_dispatcher a = true -> step a s = Some (s', e) -> sent e = [].
Proof.
  intros Ha Hstep. destruct s as [[bi ki xi] [bo ko xo] [bc kc xc] q p cr].
  unfold_step Hstep. destruct cr; [done|].
  destruct a; try done; destruct p; simpl in *; split_cases Hstep;
    by simplify_eq.
Qed.

Lemma dispatcher_run_pending l s s' evs :
  inv s -> Forall (fun a => is_dispatcher a = true) l ->
  exec l s = Some (s', evs) -> pending s' = pending s.
Proof.
  intros Hinv Hl Hex.
  pose proof (exec_pending _ _ _ _ Hinv Hex) as Hcons.
  assert (recvd evs = [] /\ sent evs = []) as [Hr Hs].
  { clear Hcons Hinv. revert s evs Hex.
    induction l as [|a l IH]; simpl; intros s evs Hex; [by simplify_eq|].
    destruct (step a s) as [[s1 e1]|] eqn:E1; [|done].
    destruct (exec l s1) as [[s2 e2]|] eqn:E2; [|done]. simplify_eq.
    apply Forall_cons in Hl as [Ha Hl].
    destruct (IH Hl _ _ E2) as [Hr2 Hs2].
    destruct (dispatcher_silent _ _ _ _ Ha E1) as [Hr1 _].
    rewrite recvd_app, sent_app, Hr1, Hr2, Hs2.
    by rewrite (dispatcher_sends_nothing _ _ _ _ Ha E1). }
  by rewrite Hr, Hs, app_nil_r in Hcons.
Qed.

(** X5. [closed()] drops nothing. While [ch.out] is full its [select]
    takes [default:] and changes nothing; so as long as more than 16
    values are undelivered and nobody receives, the dispatcher keeps all of
    them and does not close [ch.out]. *)
Theorem closed_never_drops l s evs l' s' evs' :
  exec l NewUnboundedChan = Some (s, evs) ->
  Forall (fun a => is_dispatcher a = true) l' ->
  exec l' s = Some (s', evs') ->
  pending s' = pending s /\
  (16 < length (pending s) -> is_closed (ch_out s') = false) /\
  (at_pc s' = PFlush -> crashed s' = false -> 0 < len (ch_q s') ->
   length (buf (ch_out s')) = 16 -> step ATick s' = Some (s', [])).
Proof.
  intros Hex Hl' Hex'.
  pose proof (exec_inv _ _ _ _ inv_New Hex) as Hinv.
  pose proof (exec_inv _ _ _ _ Hinv Hex') as Hinv'.
  pose proof (dispatcher_run_pending _ _ _ _ Hinv Hl' Hex') as Hpend.
  assert (within_capacity s') as [_ Hwo].
  { eapply exec_within_capacity; [|exact Hex'].
    eapply exec_within_capacity; [|exact Hex]. split; simpl; lia. }
  destruct Hinv' as (Hwf & Hci & Hco & Hpc).
  split; [done|]. split.
  - intros Hbig. rewrite <- Hpend in Hbig.
    destruct (is_closed (ch_out s')) eqn:Hc; [|done]. exfalso.
    unfold pc_inv, pending in *.
    destruct (at_pc s'); destruct_and?; try congruence;
      match goal with
      | H : buf (ch_in s') = [] |- _ =>
          rewrite H, elems_nil, app_nil_r in Hbig by done
      end; simpl in Hbig; lia.
  - intros Hat Hcr Hlen Hfull.
    destruct (index0_is_Some _ Hwf Hlen) as [e He].
    unfold pc_inv in Hpc. rewrite Hat in Hpc. destruct_and?.
    unfold Chan.step, Chan.processing, Chan.closed, send_out, chan_send.
    rewrite Hcr, Hat. rewrite decide_True by done.
    rewrite He. match goal with H : is_closed (ch_out s') = false |- _ => rewrite H end.
    by rewrite decide_False by lia.
Qed.

(** X6. [Close()] does not wait for the consumer. On an open channel it
    meets the dispatcher at a [select] after at most two statements of the
    dispatcher, whatever is buffered; it returns with every undelivered
    value kept. *)
Theorem Close_returns_promptly l s evs :
  Forall (fun a => open_use a = true) l ->
  exec l NewUnboundedChan = Some (s, evs) ->
  exists ds s1 s2,
    Forall (fun a => is_dispatcher a = true) ds /\ length ds <= 2 /\
    exec ds s = Some (s1, []) /\
    step AClose s1 = Some (s2, [EvCloseRet]) /\
    at_pc s2 = PClosed /\ pending s2 = pending s.
Proof.
  intros Hl Hex.
  destruct (open_run _ _ _ _ inv_New proper_New eq_refl Hl Hex)
    as (Hinv & Hp & Ho & _ & _).
  destruct (tick_to_select s Hinv Hp Ho) as (ds & s1 & Hds & Hlen & E1 & Hin & Hat).
  pose proof (exec_inv _ _ _ _ Hinv E1) as (_ & _ & _ & Hpc1).
  pose proof (dispatcher_run_pending _ _ _ _ Hinv Hds E1) as Hpend.
  assert (Forall (fun a => draining a = true) ds) as Hdr.
  { eapply Forall_impl; [exact Hds|]. intros a Ha. unfold draining.
    by rewrite Ha. }
  destruct (draining_run _ _ _ _ Hinv Hp Hdr E1) as (_ & [Hcr1 _] & _).
  exists ds, s1, (set_pc PClosed s1). split_and!; try done.
  unfold Chan.step, Chan.Close, Chan.processing, pc_inv in *. rewrite Hcr1.
  destruct Hat as [Hat | Hat]; rewrite Hat in *; destruct_and?;
    by match goal with H : is_closed (ch_close s1) = false |- _ => rewrite H end.
Qed.

Lemma observed_nil_recvd evs : observed evs = [] -> recvd evs = [].
Proof.
  induction evs as [|[v|v| | |] evs IH]; simpl; intros H; try done;
    by apply IH.
Qed.

(** On an open channel a sender gets one more value in, with the help of
    the dispatcher alone. *)
Lemma one_more_send s v :
  inv s -> proper s -> close_received (at_pc s) = false ->
  within_capacity s ->
  exists l s' evs,
    Forall (fun a => feeding a = true) l /\ sends_of l = [v] /\
    exec l s = Some (s', evs).
Proof.
  intros Hinv Hp Ho [Hwi _].
  assert (capacity (ch_in s) = 16) as Hcap by apply Hinv.
  assert (crashed s = false) as Hcr by apply Hp.
  assert (is_closed (ch_in s) = false) as Hcl.
  { destruct Hp as [_ Hp]. destruct (is_closed (ch_in s)); [|done].
    specialize (Hp eq_refl). by destruct (at_pc s). }
  rewrite Hcap in Hwi.
  destruct (decide (length (buf (ch_in s)) < 16)) as [Hlt|Hfull].
  - exists [ASend v]. eexists _, _. split_and!; [by repeat constructor | done |].
    simpl. unfold Chan.step, chan_send. rewrite Hcr, Hcl, Hcap.
    by rewrite decide_True by done.
  - destruct (tick_to_select s Hinv Hp Ho) as (ds & s1 & Hds & _ & E1 & Hin & Hat).
    assert (Forall (fun a => draining a = true) ds) as Hdr.
    { eapply Forall_impl; [exact Hds|]. intros a Ha. unfold draining.
      by rewrite Ha. }
    destruct (draining_run _ _ _ _ Hinv Hp Hdr E1) as (Hinv1 & Hp1 & _).
    destruct (recv_in_unblocks s1 v Hinv1 Hp1 Hat) as (s2 & s3 & E2 & E3).
    { rewrite Hin. lia. }
    exists (ds ++ [ARecvIn; ASend v]), s3. eexists. split_and!.
    + apply Forall_app. split; [|by repeat constructor].
      eapply Forall_impl; [exact Hds|]. intros a Ha. unfold feeding.
      rewrite Ha. by destruct (is_send a).
    + unfold sends_of. rewrite omap_app. simpl.
      assert (omap (fun a : @action T =>
                      match a with ASend v0 => Some v0 | _ => None end) ds = [])
        as ->; [|done].
      clear -Hds. induction Hds as [|a ds Ha _ IH]; [done|].
      simpl. destruct a; try done.
    + rewrite exec_app, E1. simpl. by rewrite E2, E3.
Qed.

(** X7. The channel is unbounded for the senders: on an open channel any
    number of sends complete with the dispatcher alone moving, without a
    single receive; the values queue up behind those already pending. *)
Theorem sends_never_wait_for_receiver l s evs vs :
  Forall (fun a => open_use a = true) l ->
  exec l NewUnboundedChan = Some (s, evs) ->
  exists l' s' evs',
    Forall (fun a => feeding a = true) l' /\
    exec l' s = Some (s', evs') /\
    sent evs' = vs /\ recvd evs' = [] /\
    pending s' = pending s ++ vs.
Proof.
  intros Hl Hex.
  destruct (open_run _ _ _ _ inv_New proper_New eq_refl Hl Hex)
    as (Hinv & Hp & Ho & _ & _).
  assert (within_capacity s) as Hw.
  { eapply exec_within_capacity; [|exact Hex]. split; simpl; lia. }
  clear Hl Hex. revert s Hinv Hp Ho Hw.
  induction vs as [|v vs IH]; intros s Hinv Hp Ho Hw.
  - exists [], s, []. split_and!; try done. by rewrite app_nil_r.
  - destruct (one_more_send s v Hinv Hp Ho Hw) as (l1 & s1 & e1 & Hl1 & Hv & E1).
    destruct (feeding_run _ _ _ _ Hinv Hp Ho Hl1 E1)
      as (Hinv1 & Hp1 & Ho1 & Hs1 & Hb1).
    pose proof (exec_within_capacity _ _ _ _ Hw E1) as Hw1.
    pose proof (exec_pending _ _ _ _ Hinv E1) as Hc1.
    rewrite (observed_nil_recvd _ Hb1), Hs1, Hv in Hc1. simpl in Hc1.
    destruct (IH s1 Hinv1 Hp1 Ho1 Hw1) as (l2 & s2 & e2 & Hl2 & E2 & Hs2 & Hr2 & Hc2).
    exists (l1 ++ l2), s2, (e1 ++ e2). split_and!.
    + by apply Forall_app.
    + by rewrite exec_app, E1, E2.
    + by rewrite sent_app, Hs1, Hv, Hs2.
    + by rewrite recvd_app, (observed_nil_recvd _ Hb1), Hr2.
    + by rewrite Hc2, Hc1, <- app_assoc.
Qed.

(** The buffer holds on to nothing it has handed over. *)

Lemma clean_make c : clean nilT (make c).
Proof.
  intros i x Hx _. unfold Chan.make in Hx. simpl in Hx.
  by apply lookup_replicate in Hx as [-> _].
Qed.

Lemma clean_append q e :
  wf_slice q -> clean nilT q -> clean nilT (append q e).
Proof.
  unfold wf_slice, clean, Chan.append. intros Hwf Hc. case_decide as Hlt.
  - simpl. intros i x Hx Hi.
    rewrite list_lookup_insert_ne in Hx by lia. apply (Hc i x Hx). lia.
  - simpl. intros i x Hx Hi.
    pose proof (length_elems q Hwf) as Hlen.
    rewrite lookup_app_r in Hx by lia. rewrite Hlen in Hx.
    destruct (i - len q) as [|k] eqn:Ek; [lia|]. simpl in Hx.
    by apply lookup_replicate in Hx as [-> _].
Qed.

Lemma clean_pop q :
  wf_slice q -> 0 < len q -> clean nilT q ->
  clean nilT (reslice1 (set0 q nilT)).
Proof.
  unfold wf_slice, clean. simpl. intros Hwf Hlt Hc i x Hx Hi.
  destruct (decide (i = off q)) as [->|Hne].
  - rewrite list_lookup_insert_eq in Hx by lia. by simplify_eq.
  - rewrite list_lookup_insert_ne in Hx by done. apply (Hc i x Hx). lia.
Qed.

Lemma step_clean a s s' e :
  inv s -> clean nilT (ch_q s) -> step a s = Some (s', e) ->
  clean nilT (ch_q s').
Proof.
  intros (Hwf & Hci & Hco & Hpc) Hc Hstep.
  destruct s as [[bi ki xi] [bo ko xo] [bc kc xc] q p cr].
  unfold inv, pc_inv in *. simpl in *.
  unfold_step Hstep. destruct cr; [done|].
  destruct a; [..|destruct p]; simpl in *; try destruct p;
    split_cases Hstep; simplify_eq; simpl in *;
    repeat match goal with
           | H : index0 _ = Some _ |- _ =>
               apply (index0_Some _ _ nilT Hwf) in H as [? _]
           end;
    first [done | by apply clean_append | by apply clean_make
          | by apply clean_pop].
Qed.

(** X8. In every state of every run the backing array of [ch.q] holds nil
    outside the window of [ch.q]: the slot of a value handed to [ch.out] is
    cleared before the window moves past it, so the buffer keeps no value
    alive that it has delivered. *)
Theorem buffer_keeps_no_delivered_value l s evs :
  exec l NewUnboundedChan = Some (s, evs) ->
  forall i x, arr (ch_q s) !! i = Some x ->
              i < off (ch_q s) \/ off (ch_q s) + len (ch_q s) <= i ->
              x = nilT.
Proof.
  assert (forall l s s' evs, inv s -> clean nilT (ch_q s) ->
            exec l s = Some (s', evs) -> clean nilT (ch_q s')) as Hrun.
  { clear. induction l as [|a l IH]; simpl; intros s s' evs Hinv Hc Hex.
    - by simplify_eq.
    - destruct (step a s) as [[s1 e1]|] eqn:E1; [|done].
      destruct (exec l s1) as [[s2 e2]|] eqn:E2; [|done]. simplify_eq.
      eapply IH; [by eapply step_inv | by eapply step_clean | done]. }
  intros Hex. apply (Hrun l NewUnboundedChan s evs inv_New); [|done].
  intros i x Hx. done.
Qed.

Lemma step_close_received a s s' e :
  step a s = Some (s', e) ->
  close_received (at_pc s) = true -> close_received (at_pc s') = true.
Proof.
  intros Hstep. destruct s as [[bi ki xi] [bo ko xo] [bc kc xc] q p cr].
  unfold_step Hstep. destruct cr; [done|].
  destruct a, p; simpl in *; try done; split_cases Hstep;
    by simplify_eq.
Qed.

Lemma exec_close_received l s s' evs :
  exec l s = Some (s', evs) ->
  close_received (at_pc s) = true -> close_received (at_pc s') = true.
Proof.
  revert s evs. induction l as [|a l IH]; simpl; intros s evs Hex Hc.
  - by simplify_eq.
  - destruct (step a s) as [[s1 e1]|] eqn:E1; [|done].
    destruct (exec l s1) as [[s2 e2]|] eqn:E2; [|done]. simplify_eq.
    eapply IH; [done|]. by eapply step_close_received.
Qed.

(** X15. A second [Close()] made while [closed()] is still running neither
    returns nor panics: nobody receives from [ch.close] any more, so it
    blocks until [closed()] has closed [ch.close]. That does not happen
    while more than 16 values are undelivered and nobody receives. *)
Theorem second_Close_waits_for_closed l s evs l' s' evs' :
  exec l NewUnboundedChan = Some (s, evs) ->
  close_received (at_pc s) = true ->
  exec l' s = Some (s', evs') ->
  (at_pc s' ≠ PDone -> step AClose s' = None) /\
  (Forall (fun a => is_dispatcher a = true) l' ->
   16 < length (pending s) -> at_pc s' ≠ PDone).
Proof.
  intros Hex Hc Hex'.
  pose proof (exec_inv _ _ _ _ inv_New Hex) as Hinv.
  pose proof (exec_inv _ _ _ _ Hinv Hex') as Hinv'.
  pose proof (exec_close_received _ _ _ _ Hex' Hc) as Hc'.
  split.
  - intros Hnd. destruct Hinv' as (_ & _ & _ & Hpc).
    unfold Chan.step, Chan.Close, Chan.processing, pc_inv in *.
    destruct (crashed s'); [done|].
    destruct (at_pc s'); try done; destruct_and?;
      by match goal with
         | H : is_closed (ch_close s') = false |- _ => rewrite H
         end.
  - intros Hl' Hbig Hd.
    pose proof (dispatcher_run_pending _ _ _ _ Hinv Hl' Hex') as Hpend.
    assert (within_capacity s') as [_ Hwo].
    { eapply exec_within_capacity; [|exact Hex'].
      eapply exec_within_capacity; [|exact Hex]. split; simpl; lia. }
    destruct Hinv' as (Hwf & _ & Hco & Hpc).
    unfold pc_inv in Hpc. rewrite Hd in Hpc. destruct_and?.
    rewrite <- Hpend in Hbig. unfold pending in Hbig.
    match goal with
    | H : buf (ch_in s') = [] |- _ =>
        rewrite H, elems_nil, app_nil_r in Hbig by done
    end.
    simpl in Hbig. lia.
Qed.

End ChanSpec.

(** *** The claims at sample runs *)

Lemma drain_on_close_witness :
  Forall (fun a : @action (option nat) => feeding a = true) sample_feed /\
  Forall (fun a : @action (option nat) => draining a = true)
    [ATick; ATick; ATick; ATick; ATick; ARecv] /\
  exists s evs,
    sample_exec (sample_feed ++ AClose :: [ATick; ATick; ATick; ATick; ATick; ARecv])
      = Some (s, evs) /\
    crashed s = false /\
    (exists m, observed evs = (Some <$> recvd evs) ++ replicate m None /\
               recvd evs `prefix_of` [Some 1; None; Some 3] /\
               (0 < m -> recvd evs = [Some 1; None; Some 3])) /\
    (exists rest s' evs' m,
       Forall (fun a : @action (option nat) => draining a = true) rest /\
       exec None grow_double (rest ++ [ARecv]) s = Some (s', evs') /\
       observed (evs ++ evs')
         = [Some (Some 1); Some None; Some (Some 3)] ++ replicate (S m) None) /\
    (forall a s1 e, draining a = true ->
       step None grow_double a s = Some (s1, e) -> mu s1 < mu s \/ s1 = s).
Proof.
  assert (Forall (fun a : @action (option nat) => feeding a = true) sample_feed)
    as H1 by (repeat constructor).
  assert (Forall (fun a : @action (option nat) => draining a = true)
            [ATick; ATick; ATick; ATick; ATick; ARecv]) as H2
    by (repeat constructor).
  split; [exact H1|]. split; [exact H2|].
  eexists _, _. split; [vm_compute; reflexivity|].
  apply (drain_on_close None grow_double sample_feed
           [ATick; ATick; ATick; ATick; ATick; ARecv] _ _ H1 H2).
  vm_compute. reflexivity.
Defined.

Lemma order_preserved_witness :
  Forall (fun a : @action (option nat) => open_use a = true)
    [ATick; ASend (Some 1); ASend None; ARecvIn; ATick; ASendOut; ARecv;
     ASend (Some 3)] /\
  exists s evs,
    sample_exec [ATick; ASend (Some 1); ASend None; ARecvIn; ATick; ASendOut;
                 ARecv; ASend (Some 3)] = Some (s, evs) /\
    crashed s = false /\
    sent evs = [Some 1; None; Some 3] /\
    observed evs = (Some <$> recvd evs) /\
    recvd evs ++ pending s = sent evs /\
    (exists rest s' evs',
       Forall (fun a : @action (option nat) => draining a = true) rest /\
       exec None grow_double rest s = Some (s', evs') /\
       recvd (evs ++ evs') = sent evs /\ pending s' = []).
Proof.
  assert (Forall (fun a : @action (option nat) => open_use a = true)
            [ATick; ASend (Some 1); ASend None; ARecvIn; ATick; ASendOut; ARecv;
             ASend (Some 3)]) as H1 by (repeat constructor).
  split; [exact H1|].
  eexists _, _. split; [vm_compute; reflexivity|].
  apply (order_preserved None grow_double
           [ATick; ASend (Some 1); ASend None; ARecvIn; ATick; ASendOut; ARecv;
            ASend (Some 3)] _ _ H1).
  vm_compute. reflexivity.
Defined.

(** After 16 sends that the dispatcher has not yet looked at, the channel
    is open and a 17th send blocks. *)
Example staging_full_blocks :
  exists s evs,
    exec None grow_double (replicate 16 (ASend (Some 7))) NewUnboundedChan
      = Some (s, evs) /\
    length (buf (ch_in s)) = 16 /\ is_closed (ch_in s) = false /\
    crashed s = false /\
    step None grow_double (ASend (Some 7)) s = None.
Proof. eexists _, _. split_and!; vm_compute; reflexivity. Qed.

(** C4, as stated, fails at that state. *)
Lemma send_blocks_when_staging_full :
  ~ send_never_blocks (T:=option nat) None grow_double.
Proof.
  intros H. destruct staging_full_blocks as (s & evs & E & _ & _ & _ & Hb).
  assert (Forall (fun a : @action (option nat) => open_use a = true)
            (replicate 16 (ASend (Some 7)))) as Hl by (repeat constructor).
  destruct (H (replicate 16 (ASend (Some 7))) s evs (Some 7) Hl E) as [r Hr].
  rewrite Hb in Hr. discriminate.
Qed.

Lemma send_waits_for_dispatcher_only_witness :
  Forall (fun a : @action (option nat) => open_use a = true)
    (replicate 16 (ASend (Some 7))) /\
  exists s evs,
    sample_exec (replicate 16 (ASend (Some 7))) = Some (s, evs) /\
    length (buf (ch_in s)) = 16 /\
    step None grow_double (ASend (Some 7)) s = None /\
    exists ds s1 s2,
      Forall (fun a : @action (option nat) => is_dispatcher a = true) ds /\
      length ds <= 3 /\
      exec None grow_double ds s = Some (s1, []) /\
      step None grow_double (ASend (Some 7)) s1 = Some (s2, [EvSent (Some 7)]).
Proof.
  assert (Forall (fun a : @action (option nat) => open_use a = true)
            (replicate 16 (ASend (Some 7)))) as Hl by (repeat constructor).
  split; [exact Hl|].
  eexists _, _. split; [vm_compute; reflexivity|].
  split; [reflexivity|].
  refine (proj2 (proj2 (send_waits_for_dispatcher_only None grow_double
                          (replicate 16 (ASend (Some 7))) _ _ (Some 7) Hl _)) _);
    [vm_compute; reflexivity | reflexivity].
Defined.

(** Between the return of [Close()] and the [close(ch.in)] of [closed()]
    a send is still accepted, and its value is delivered. *)
Example send_accepted_before_close_in :
  exists s,
    sample_exec [ATick; AClose; ASend (Some 1); ATick; ATick; ATick; ATick; ARecv]
      = Some (s, [EvCloseRet; EvSent (Some 1); EvRecv (Some 1)]) /\
    at_pc s = PFlush.
Proof. eexists. split; vm_compute; reflexivity. Qed.

(** While [closed()] is still running a second [Close()] blocks; it panics
    once [closed()] has closed [ch.close]. *)
Example second_close_blocks_during_drain :
  exists s evs,
    sample_exec [ATick; ASend (Some 1); ARecvIn; ATick; AClose; ATick; ATick]
      = Some (s, evs) /\
    at_pc s = PFlush /\ step None grow_double AClose s = None.
Proof. eexists _, _. split_and!; vm_compute; reflexivity. Qed.

Lemma misuse_after_close_panics_witness :
  exists s evs,
    sample_exec sample_closed_run = Some (s, evs) /\
    crashed s = false /\ at_pc s = PDone /\
    (forall v, step None grow_double (ASend v) s = Some (set_crashed s, [EvPanic])) /\
    step None grow_double AClose s = Some (set_crashed s, [EvPanic]) /\
    forall a, step None grow_double a (set_crashed s) = None.
Proof.
  eexists _, _. split; [vm_compute; reflexivity|].
  split; [reflexivity|]. split; [reflexivity|].
  refine (proj2 (misuse_after_close_panics None grow_double sample_closed_run
                   _ _ _ _) _);
    [vm_compute; reflexivity | reflexivity | reflexivity].
Defined.

Lemma buffer_reallocated_when_drained_witness :
  exists s evs,
    sample_exec sample_worn_run = Some (s, evs) /\
    crashed s = false /\ at_pc s = PCheck /\ cap (ch_q s) = 31 /\
    len (ch_q s) = 0 /\
    exists s', step None grow_double ATick s = Some (s', []) /\
      at_pc s' = PSelect1 /\
      ch_q s' = (if decide (cap (ch_q s) < 32) then make None 1024 else ch_q s) /\
      len (ch_q s') = 0 /\ 32 <= cap (ch_q s').
Proof.
  eexists _, _. split; [vm_compute; reflexivity|].
  split; [reflexivity|]. split; [reflexivity|].
  split; [vm_compute; reflexivity|].
  refine (proj1 (proj2 (buffer_reallocated_when_drained None grow_double
                          sample_worn_run _ _ _ _)) _);
    [vm_compute; reflexivity | reflexivity | reflexivity].
Defined.

(** *** The further properties at sample runs *)

Lemma no_value_lost_or_reordered_witness :
  exists s evs,
    sample_exec sample_misuse_run = Some (s, evs) /\
    crashed s = true /\
    recvd evs ++ pending s = sent evs /\
    exists m, observed evs = (Some <$> recvd evs) ++ replicate m None /\
              (0 < m -> recvd evs = sent evs /\ pending s = []).
Proof.
  eexists _, _. split; [vm_compute; reflexivity|]. split; [reflexivity|].
  eapply (no_value_lost_or_reordered None grow_double sample_misuse_run).
  vm_compute. reflexivity.
Defined.

Lemma every_completed_send_is_delivered_witness :
  Forall (fun a : @action (option nat) => is_misuse a = false)
    sample_late_send_run /\
  exists s evs,
    sample_exec sample_late_send_run = Some (s, evs) /\
    crashed s = false /\
    sent evs = [Some 1; Some 2] /\
    exists rest s' evs',
      Forall (fun a : @action (option nat) => draining a = true) rest /\
      exec None grow_double rest s = Some (s', evs') /\
      recvd (evs ++ evs') = sent evs /\
      (close_received (at_pc s) = true ->
       step None grow_double ARecv s' = Some (s', [EvEOS])).
Proof.
  assert (Forall (fun a : @action (option nat) => is_misuse a = false)
            sample_late_send_run) as Hl by (repeat constructor).
  split; [exact Hl|].
  eexists _, _. split; [vm_compute; reflexivity|].
  split; [reflexivity|]. split; [reflexivity|].
  eapply (every_completed_send_is_delivered None grow_double
           sample_late_send_run _ _ Hl); [vm_compute|]; reflexivity.
Defined.

Lemma end_of_stream_is_final_witness :
  exists s1 e1 s2 e2,
    sample_exec sample_eos_run = Some (s1, e1) /\
    eos s1 /\
    exec None grow_double [ARecv; ATick; ASend (Some 5)] s1 = Some (s2, e2) /\
    e2 = [EvEOS; EvPanic] /\
    eos s2 /\ recvd e2 = [] /\ sent e2 = [] /\
    (exists m, observed e2 = replicate m None) /\
    recvd e1 = sent e1.
Proof.
  eexists _, _, _, _. split; [vm_compute; reflexivity|].
  split; [split; reflexivity|].
  split; [vm_compute; reflexivity|]. split; [reflexivity|].
  eapply (end_of_stream_is_final None grow_double sample_eos_run
            [ARecv; ATick; ASend (Some 5)]);
    [vm_compute; reflexivity | split; reflexivity | vm_compute; reflexivity].
Defined.

Lemma closing_In_directly_panics_witness :
  exists s evs,
    sample_exec [ATick; ASend (Some 1); ACloseIn] = Some (s, evs) /\
    crashed s = false /\ is_closed (ch_in s) = true /\
    (at_pc s = PSelect1 \/ at_pc s = PSelect2) /\
    (forall v, step None grow_double (ASend v) s = Some (set_crashed s, [EvPanic])) /\
    (buf (ch_in s) = [] ->
     step None grow_double ARecvIn s = Some (set_crashed s, [EvPanic])) /\
    (forall e rest, buf (ch_in s) = e :: rest ->
     exists s', step None grow_double ARecvIn s = Some (s', []) /\
       buf (ch_in s') = rest /\ elems (ch_q s') = elems (ch_q s) ++ [e] /\
       at_pc s' = PLoop) /\
    (exists s1, step None grow_double AClose s = Some (s1, [EvCloseRet]) /\
       step None grow_double ATick s1 = Some (set_crashed s1, [EvPanic])).
Proof.
  eexists _, _. split; [vm_compute; reflexivity|].
  split; [reflexivity|]. split; [reflexivity|]. split; [by left|].
  eapply (closing_In_directly_panics None grow_double
           [ATick; ASend (Some 1); ACloseIn]);
    [vm_compute; reflexivity | reflexivity | reflexivity | by left].
Defined.

Lemma closed_never_drops_witness :
  Forall (fun a : @action (option nat) => is_dispatcher a = true)
    (replicate 25 ATick) /\
  exists s evs s' evs',
    sample_exec sample_backlog_run = Some (s, evs) /\
    exec None grow_double (replicate 25 ATick) s = Some (s', evs') /\
    length (pending s) = 17 /\ at_pc s' = PFlush /\
    pending s' = pending s /\
    is_closed (ch_out s') = false /\
    step None grow_double ATick s' = Some (s', []).
Proof.
  assert (Forall (fun a : @action (option nat) => is_dispatcher a = true)
            (replicate 25 ATick)) as Hl by (repeat constructor).
  split; [exact Hl|].
  eexists _, _, _, _. split; [vm_compute; reflexivity|].
  split; [vm_compute; reflexivity|].
  split; [reflexivity|]. split; [reflexivity|].
  refine (match closed_never_drops None grow_double sample_backlog_run _ _
                  (replicate 25 ATick) _ _ _ Hl _ with
          | conj H1 (conj H2 H3) => conj H1 (conj (H2 _) (H3 _ _ _ _))
          end);
    first [vm_compute; reflexivity | reflexivity | vm_compute; lia].
Defined.

Lemma Close_returns_promptly_witness :
  Forall (fun a : @action (option nat) => open_use a = true)
    [ATick; ASend (Some 1); ARecvIn] /\
  exists s evs,
    sample_exec [ATick; ASend (Some 1); ARecvIn] = Some (s, evs) /\
    at_pc s = PLoop /\
    exists ds s1 s2,
      Forall (fun a : @action (option nat) => is_dispatcher a = true) ds /\
      length ds <= 2 /\
      exec None grow_double ds s = Some (s1, []) /\
      step None grow_double AClose s1 = Some (s2, [EvCloseRet]) /\
      at_pc s2 = PClosed /\ pending s2 = pending s.
Proof.
  assert (Forall (fun a : @action (option nat) => open_use a = true)
            [ATick; ASend (Some 1); ARecvIn]) as Hl by (repeat constructor).
  split; [exact Hl|].
  eexists _, _. split; [vm_compute; reflexivity|]. split; [reflexivity|].
  eapply (Close_returns_promptly None grow_double
           [ATick; ASend (Some 1); ARecvIn] _ _ Hl).
  vm_compute. reflexivity.
Defined.

Lemma sends_never_wait_for_receiver_witness :
  Forall (fun a : @action (option nat) => open_use a = true)
    (replicate 16 (ASend (Some 7))) /\
  exists s evs,
    sample_exec (replicate 16 (ASend (Some 7))) = Some (s, evs) /\
    length (buf (ch_in s)) = 16 /\
    exists l' s' evs',
      Forall (fun a : @action (option nat) => feeding a = true) l' /\
      exec None grow_double l' s = Some (s', evs') /\
      sent evs' = [Some 1; None] /\ recvd evs' = [] /\
      pending s' = pending s ++ [Some 1; None].
Proof.
  assert (Forall (fun a : @action (option nat) => open_use a = true)
            (replicate 16 (ASend (Some 7)))) as Hl by (repeat constructor).
  split; [exact Hl|].
  eexists _, _. split; [vm_compute; reflexivity|]. split; [reflexivity|].
  eapply (sends_never_wait_for_receiver None grow_double
           (replicate 16 (ASend (Some 7))) _ _ [Some 1; None] Hl).
  vm_compute. reflexivity.
Defined.

Lemma buffer_keeps_no_delivered_value_witness :
  exists s evs,
    sample_exec (ATick :: round_trip (Some 4) ++ round_trip (Some 5))
      = Some (s, evs) /\
    off (ch_q s) = 2 /\
    forall i x, arr (ch_q s) !! i = Some x ->
                i < off (ch_q s) \/ off (ch_q s) + len (ch_q s) <= i ->
                x = None.
Proof.
  eexists _, _. split; [vm_compute; reflexivity|]. split; [reflexivity|].
  eapply (buffer_keeps_no_delivered_value None grow_double
           (ATick :: round_trip (Some 4) ++ round_trip (Some 5))).
  vm_compute. reflexivity.
Defined.

Lemma second_Close_waits_for_closed_witness :
  exists s evs s' evs',
    sample_exec sample_backlog_run = Some (s, evs) /\
    close_received (at_pc s) = true /\
    exec None grow_double (replicate 25 ATick) s = Some (s', evs') /\
    length (pending s) = 17 /\
    at_pc s' ≠ PDone /\
    step None grow_double AClose s' = None.
Proof.
  assert (Forall (fun a : @action (option nat) => is_dispatcher a = true)
            (replicate 25 ATick)) as Hl by (repeat constructor).
  eexists _, _, _, _. split; [vm_compute; reflexivity|].
  split; [reflexivity|]. split; [vm_compute; reflexivity|].
  split; [reflexivity|].
  refine (match second_Close_waits_for_closed None grow_double
                  sample_backlog_run _ _ (replicate 25 ATick) _ _ _ _ _ with
          | conj H1 H2 => conj (H2 Hl _) (H1 (H2 Hl _))
          end);
    first [vm_compute; reflexivity | reflexivity | vm_compute; lia].
Defined.

End ChanSpec.
